(** * Readme-Ranker: the analyzer of [src/analyzer.ts], embedded and verified

    The development follows the source file top-down:

    - [JS]: the fragment of the JavaScript runtime the analyzer relies on
      (strings as sequences of UTF-16 code units, [split], [join], [trim],
      a backtracking regular-expression matcher with the [g], [i] and [m]
      flags, the mutable [lastIndex] of a RegExp object, exceptions);
    - the two criterion catalogs, transcribed pattern by pattern;
    - [analyze], with its four phases in the order of the source;
    - the properties of the report.

    [analyze] in the source first reads the file at [readmePath]; the
    embedding starts after that read and takes the file's content.

    The progress bar of [src/utils.ts], which the command line draws from
    the total of a report, follows the analyzer, on binary64 Numbers. *)

From Stdlib Require Import ZArith NArith QArith Lia Bool Ascii String.
From Stdlib Require PrimFloat FloatOps SpecFloat Uint63.
From stdpp Require Import base gmap strings list fin_maps pretty.

Local Open Scope nat_scope.

(** ** The JavaScript runtime fragment *)

Module JS.

(** A JavaScript string is a sequence of UTF-16 code units, each a number
    below 65536: [list N] throughout. *)

Definition of_ascii (a : ascii) : N := N_of_ascii a.

Fixpoint of_string (s : string) : list N :=
  match s with
  | EmptyString => []
  | String a s' => of_ascii a :: of_string s'
  end.

Definition in_range (lo hi c : N) : bool := ((lo <=? c) && (c <=? hi))%N.

(** LineTerminator: LF, CR, LS, PS. *)
Definition is_line_terminator (c : N) : bool :=
  ((c =? 10) || (c =? 13) || (c =? 8232) || (c =? 8233))%N.

(** WhiteSpace and LineTerminator together: what [\s] matches and what
    [trim] strips. *)
Definition is_space (c : N) : bool :=
  (in_range 9 13 c || (c =? 32) || (c =? 160) || (c =? 5760)
   || in_range 8192 8202 c || (c =? 8232) || (c =? 8233) || (c =? 8239)
   || (c =? 8287) || (c =? 12288) || (c =? 65279))%N.

Definition is_digit (c : N) : bool := in_range 48 57 c.

Definition is_word (c : N) : bool :=
  (in_range 97 122 c || in_range 65 90 c || is_digit c || (c =? 95))%N.

(** Canonicalize of the [i] flag, exact on the ASCII range.  A code unit
    of 128 or more never canonicalizes into the ASCII range, so comparing
    it with an ASCII pattern character fails whatever its upper case is;
    every pattern of the analyzer is ASCII. *)
Definition canonicalize (c : N) : N :=
  if in_range 97 122 c then (c - 32)%N else c.

Definition to_lower (c : N) : N :=
  if in_range 65 90 c then (c + 32)%N else c.

(** *** String methods *)

(** [s.split(sep)] for a separator of one code unit. *)
Fixpoint split (sep : N) (s : list N) : list (list N) :=
  match s with
  | [] => [[]]
  | c :: s' =>
      if (c =? sep)%N then [] :: split sep s'
      else match split sep s' with
           | h :: t => (c :: h) :: t
           | [] => [[c]]
           end
  end.

(** [a.join(sep)]. *)
Fixpoint join (sep : list N) (a : list (list N)) : list N :=
  match a with
  | [] => []
  | [x] => x
  | x :: a' => x ++ sep ++ join sep a'
  end.

(** [a.slice(1)]. *)
Definition slice1 {A} (a : list A) : list A := drop 1 a.

Fixpoint trim_start (s : list N) : list N :=
  match s with
  | c :: s' => if is_space c then trim_start s' else s
  | [] => []
  end.

Definition trim_end (s : list N) : list N := reverse (trim_start (reverse s)).

Definition trim (s : list N) : list N := trim_end (trim_start s).

(** *** Regular expressions *)

Inductive class_item : Type :=
  | CChar (c : N)              (* a literal inside brackets *)
  | CRange (lo hi : N)         (* a-z *)
  | CSpace | CNotSpace         (* \s \S *)
  | CWord                      (* \w *)
  | CDigit.                    (* \d *)

Inductive regex : Type :=
  | Empty
  | Chr (c : N)
  | CharSet (negated : bool) (items : list class_item)
  | Dot
  | Bol                        (* ^ *)
  | Eol                        (* $ *)
  | Seq (r1 r2 : regex)
  | Alt (r1 r2 : regex)
  | Star (greedy : bool) (r : regex)
  | Group (n : nat) (r : regex)  (* the n-th capturing parenthesis *)
  | Look (r : regex).            (* (?=r) *)

Definition Plus (greedy : bool) (r : regex) : regex := Seq r (Star greedy r).
Definition Opt (r : regex) : regex := Alt r Empty.

Fixpoint Cat (rs : list regex) : regex :=
  match rs with
  | [] => Empty
  | [r] => r
  | r :: rs' => Seq r (Cat rs')
  end.

(** A run of literal characters. *)
Definition Lit (s : string) : regex := Cat (Chr <$> of_string s).

Definition Space : regex := CharSet false [CSpace].
Definition Digit : regex := CharSet false [CDigit].

(** The matcher's position in the subject: the index, the code unit just
    before it, what is left, and the captures made so far (as index
    pairs). *)
Record mstate : Type := MState {
  pos : nat;
  prev : option N;
  rest : list N;
  caps : list (nat * (nat * nat))
}.

Definition advance (c : N) (cs : list N) (st : mstate) : mstate :=
  {| pos := S (pos st); prev := Some c; rest := cs; caps := caps st |}.

Definition set_cap (n : nat) (span : nat * nat) (st : mstate) : mstate :=
  {| pos := pos st; prev := prev st; rest := rest st;
     caps := (n, span) :: caps st |}.

Definition with_caps (cs : list (nat * (nat * nat))) (st : mstate) : mstate :=
  {| pos := pos st; prev := prev st; rest := rest st; caps := cs |}.

Section Matcher.
(** The [i] and [m] flags of the expression being run. *)
Variables (ignoreCase multiline : bool).

Definition char_matches (p c : N) : bool :=
  if ignoreCase then (canonicalize p =? canonicalize c)%N else (p =? c)%N.

Definition item_matches1 (it : class_item) (c : N) : bool :=
  match it with
  | CChar p => (p =? c)%N
  | CRange lo hi => in_range lo hi c
  | CSpace => is_space c
  | CNotSpace => negb (is_space c)
  | CWord => is_word c
  | CDigit => is_digit c
  end.

(** Under the [i] flag a class matches a code unit when one of its
    members canonicalizes like it; on the ASCII range that is the unit
    itself or its other case. *)
Definition item_matches (it : class_item) (c : N) : bool :=
  if ignoreCase
  then item_matches1 it c || item_matches1 it (canonicalize c)
       || item_matches1 it (to_lower c)
  else item_matches1 it c.

Definition set_matches (negated : bool) (items : list class_item) (c : N) : bool :=
  xorb negated (existsb (fun it => item_matches it c) items).

Definition at_bol (st : mstate) : bool :=
  match prev st with
  | None => true
  | Some c => multiline && is_line_terminator c
  end.

Definition at_eol (st : mstate) : bool :=
  match rest st with
  | [] => true
  | c :: _ => multiline && is_line_terminator c
  end.

(** One code unit against a test. *)
Definition step (test : N → bool) (st : mstate)
    (k : mstate → option mstate) : option mstate :=
  match rest st with
  | c :: cs => if test c then k (advance c cs st) else None
  | [] => None
  end.

(** The iterations of a star over the matcher [m1] of its body, before
    the continuation [k]: greedy tries one more iteration first, lazy
    tries [k] first.  An iteration that consumes nothing is rejected, so
    what is left of the subject bounds the number of iterations. *)
Fixpoint star_loop (greedy : bool)
    (m1 : mstate → (mstate → option mstate) → option mstate)
    (k : mstate → option mstate) (fuel : nat) (st : mstate) {struct fuel}
    : option mstate :=
  match fuel with
  | O => None
  | S fuel' =>
      if greedy then
        match m1 st (fun st1 =>
                if pos st1 =? pos st then None
                else star_loop greedy m1 k fuel' st1) with
        | Some res => Some res
        | None => k st
        end
      else
        match k st with
        | Some res => Some res
        | None =>
            m1 st (fun st1 =>
              if pos st1 =? pos st then None
              else star_loop greedy m1 k fuel' st1)
        end
  end.

(** The backtracking matcher, in continuation-passing style as in the
    language definition: [rmatch r st k] matches [r] at [st] and hands
    the state after it to [k]; the first success in priority order
    wins.  The patterns of the analyzer have no group under
    a star, no backreference and neither the [y], [s] nor [u] flag, so the
    reset of captures at each iteration and those flags are left out. *)
Fixpoint rmatch (r : regex) (st : mstate)
    (k : mstate → option mstate) {struct r} : option mstate :=
  match r with
  | Empty => k st
  | Chr p => step (char_matches p) st k
  | CharSet negated items => step (set_matches negated items) st k
  | Dot => step (fun c => negb (is_line_terminator c)) st k
  | Bol => if at_bol st then k st else None
  | Eol => if at_eol st then k st else None
  | Seq r1 r2 => rmatch r1 st (fun st1 => rmatch r2 st1 k)
  | Alt r1 r2 =>
      match rmatch r1 st k with
      | Some res => Some res
      | None => rmatch r2 st k
      end
  | Star greedy r1 =>
      star_loop greedy (rmatch r1) k (S (length (rest st))) st
  | Group n r1 =>
      rmatch r1 st (fun st1 => k (set_cap n (pos st, pos st1) st1))
  | Look r1 =>
      match rmatch r1 st Some with
      | Some st1 => k (with_caps (caps st1) st)
      | None => None
      end
  end.

(** The leftmost match at or after [st]: its start and end states. *)
Fixpoint search (r : regex) (st : mstate) (cs : list N) {struct cs}
    : option (mstate * mstate) :=
  match rmatch r st Some with
  | Some e => Some (st, e)
  | None =>
      match cs with
      | [] => None
      | c :: cs' => search r (advance c cs' st) cs'
      end
  end.
End Matcher.

(** The state of the matcher at index [i] of [s] (none beyond the end). *)
Fixpoint state_at (i : nat) (st : mstate) : option mstate :=
  match i with
  | O => Some st
  | S i' =>
      match rest st with
      | [] => None
      | c :: cs => state_at i' (advance c cs st)
      end
  end.

Definition start_state (s : list N) : mstate :=
  {| pos := 0; prev := None; rest := s; caps := [] |}.

Definition substring (s : list N) (from to : nat) : list N :=
  take (to - from) (drop from s).

(** What [exec] returns: [index], [m[0]] and the groups ([undefined] for
    a group that did not take part). *)
Record match_result : Type := MatchResult {
  index : nat;
  end_index : nat;
  matched : list N;
  group : nat → option (list N)
}.

Fixpoint lookup_cap (n : nat) (cs : list (nat * (nat * nat))) : option (nat * nat) :=
  match cs with
  | [] => None
  | (m, span) :: cs' => if m =? n then Some span else lookup_cap n cs'
  end.

Definition make_result (s : list N) (b e : mstate) : match_result :=
  {| index := pos b;
     end_index := pos e;
     matched := substring s (pos b) (pos e);
     group := fun n =>
       match lookup_cap n (caps e) with
       | Some (i, j) => Some (substring s i j)
       | None => None
       end |}.

(** A RegExp object: its pattern, its flags and its mutable [lastIndex]. *)
Record RegExp : Type := mkRegExp {
  source : regex;
  global : bool;
  ignoreCase : bool;
  multiline : bool;
  lastIndex : nat
}.

Definition set_lastIndex (i : nat) (re : RegExp) : RegExp :=
  {| source := source re; global := global re; ignoreCase := ignoreCase re;
     multiline := multiline re; lastIndex := i |}.

(** A regular-expression literal with the given flags. *)
Definition literal (r : regex) (g i m : bool) : RegExp :=
  {| source := r; global := g; ignoreCase := i; multiline := m; lastIndex := 0 |}.

(** [re.exec(s)] (RegExpBuiltinExec): a global expression starts at its
    [lastIndex] and leaves the end of the match there, or 0 on failure;
    any other expression starts at 0 and is left untouched. *)
Definition exec (re : RegExp) (s : list N) : option match_result * RegExp :=
  let from := if global re then lastIndex re else 0 in
  match state_at from (start_state s) with
  | None => (None, if global re then set_lastIndex 0 re else re)
  | Some st =>
      match search (ignoreCase re) (multiline re) (source re) st (rest st) with
      | None => (None, if global re then set_lastIndex 0 re else re)
      | Some (b, e) =>
          (Some (make_result s b e),
           if global re then set_lastIndex (pos e) re else re)
      end
  end.

(** [re.test(s)]. *)
Definition test (re : RegExp) (s : list N) : bool * RegExp :=
  let '(m, re') := exec re s in (bool_decide (is_Some m), re').

(** [s.match(re)] for an expression without the [g] flag. *)
Definition match_first (re : RegExp) (s : list N) : option match_result :=
  fst (exec re s).

(** [s.match(re)] for a global expression: [lastIndex] is reset, then
    [exec] is repeated, stepping over an empty match; the result is the
    array of the matched substrings, or [null] when there is none. *)
Fixpoint match_loop (fuel : nat) (re : RegExp) (s : list N) : list (list N) :=
  match fuel with
  | O => []
  | S fuel' =>
      match exec re s with
      | (None, _) => []
      | (Some m, re') =>
          let re'' :=
            if bool_decide (matched m = [])
            then set_lastIndex (S (lastIndex re')) re' else re' in
          matched m :: match_loop fuel' re'' s
      end
  end.

Definition match_all (re : RegExp) (s : list N) : option (list (list N)) :=
  match match_loop (S (length s)) (set_lastIndex 0 re) s with
  | [] => None
  | ms => Some ms
  end.

(** [x || []]. *)
Definition or_empty {A} (x : option (list A)) : list A := default [] x.

(** *** Exceptions *)

(** The completion of a call: a value, or a thrown value. *)
Inductive completion (A : Type) : Type :=
  | Ret (a : A)
  | Throw (e : string).
Arguments Ret {A} a.
Arguments Throw {A} e.

Definition bind {A B} (c : completion A) (f : A → completion B) : completion B :=
  match c with
  | Ret a => f a
  | Throw e => Throw e
  end.

(** [try { body } catch { handler }]. *)
Definition try_catch {A} (body : completion A) (handler : completion A) : completion A :=
  match body with
  | Ret a => Ret a
  | Throw _ => handler
  end.

End JS.

(** ** The data model of the analyzer *)

(** A per-rule entry of [sections] and [extras]; [suggestion] is
    [undefined] for a rule that is present. *)
Module Outcome.
Record t : Type := mk {
  present : bool;
  score : Z;
  suggestion : option string
}.
End Outcome.

Module LengthInfo.
Record t : Type := mk {
  lines : nat;
  score : Z;
  suggestion : option string
}.
End LengthInfo.

(** [codeBlocks] is the quotient of a count by two and need not be whole;
    the quotient of an array length by two is exact in the source's
    number type, so a rational holds it. *)
Module FormattingInfo.
Record t : Type := mk {
  headings : nat;
  codeBlocks : Q;
  score : Z;
  suggestion : option string
}.
End FormattingInfo.

Module AnalysisReport.
Record t : Type := mk {
  totalScore : Z;
  maxScore : Z;
  sections : gmap string Outcome.t;
  length : LengthInfo.t;
  formatting : FormattingInfo.t;
  extras : gmap string Outcome.t;
  suggestions : list string
}.
End AnalysisReport.

(** An entry of [sectionCriteria]: a RegExp object tested on the content. *)
Module SectionCriterion.
Record t : Type := mk {
  name : string;
  regex : JS.RegExp;
  score : Z;
  suggestion : string
}.
End SectionCriterion.

(** An entry of [extraCriteria]: a function of the content, which, like
    any call, returns or throws. *)
Module ExtraCriterion.
Record t : Type := mk {
  name : string;
  check : list N → JS.completion bool;
  score : Z;
  suggestion : string
}.
End ExtraCriterion.

(** The analyzer object and its two private fields. *)
Record ReadMeAnalyzer : Type := mkAnalyzer {
  sectionCriteria : list SectionCriterion.t;
  extraCriteria : list ExtraCriterion.t
}.

(** ** The catalogs *)

Module Catalog.
Import JS.

Definition c (a : ascii) : N := of_ascii a.
Definition NL : regex := Chr 10.
Definition dq : string := String (ascii_of_nat 34) EmptyString.
Definition fence : string := "```".

(** [##?\s*] followed by a section title, the head of most patterns. *)
Definition heading (title : regex) : regex :=
  Cat [Lit "#"; Opt (Lit "#"); Star true Space; title].

(** [(?=\n##? |\n# |\n$)]: where a section's text stops. *)
Definition section_end : regex :=
  Look (Alt (Cat [NL; Lit "#"; Opt (Lit "#"); Lit " "])
       (Alt (Cat [NL; Lit "# "])
            (Cat [NL; Eol]))).

(** [/##?\s*Title([\s\S]*?)(?=\n##? |\n# |\n$)/i] *)
Definition section_body (title : string) : RegExp :=
  literal (Cat [heading (Lit title);
                Group 1 (Star false (CharSet false [CSpace; CNotSpace]));
                section_end]) false true false.

(** [/!\[.*\]\(.*\)/] *)
Definition badge : regex :=
  Cat [Lit "!["; Star true Dot; Lit "]("; Star true Dot; Lit ")"].

(** [/^#+\s+/gm] *)
Definition heading_marks : RegExp :=
  literal (Cat [Bol; Plus true (Lit "#"); Plus true Space]) true false true.

(** [/```/g] *)
Definition fences : RegExp := literal (Lit fence) true false false.

Definition the_sectionCriteria : list SectionCriterion.t := [
  SectionCriterion.mk "Title"
    (* /^#\s.+/m *)
    (literal (Cat [Bol; Lit "#"; Space; Plus true Dot]) false false true)
    10 ("Add a title at the top using " +:+ dq +:+ "# Project Name" +:+ dq +:+ ".");
  SectionCriterion.mk "Description"
    (* /##?\s*(Overview|Description)/i *)
    (literal (heading (Group 1 (Alt (Lit "Overview") (Lit "Description"))))
       false true false)
    10 "Add a description section.";
  SectionCriterion.mk "Installation"
    (literal (heading (Lit "Installation")) false true false)
    10 "Add an Installation section.";
  SectionCriterion.mk "Usage"
    (literal (heading (Lit "Usage")) false true false)
    10 "Add a Usage section.";
  SectionCriterion.mk "Example"
    (literal (heading (Lit "Example")) false true false)
    5 "Add an Example section.";
  SectionCriterion.mk "Contributing"
    (literal (heading (Lit "Contributing")) false true false)
    5 "Add a Contributing section.";
  SectionCriterion.mk "License"
    (literal (heading (Lit "License")) false true false)
    10 "Add a License section.";
  SectionCriterion.mk "Badges"
    (literal badge false false false)
    5 "Add badges (e.g., build, coverage, npm version)."
].

(** [re.test(content)] on a fresh literal. *)
Definition tests (re : RegExp) (content : list N) : bool := fst (test re content).

(** [!!(match && re.test(match[1]))]; an [undefined] group would be
    converted to the string it prints as. *)
Definition body_has (title : string) (re : RegExp) (content : list N) : bool :=
  match match_first (section_body title) content with
  | None => false
  | Some m => tests re (default (of_string "undefined") (group m 1))
  end.

Definition check_ProperTitleFormat (content : list N) : bool :=
  (* /^# [A-Z][\w\s\-]+$/m *)
  tests (literal (Cat [Bol; Lit "# "; CharSet false [CRange (c "A") (c "Z")];
                       Plus true (CharSet false [CWord; CSpace; CChar (c "-")]);
                       Eol]) false false true) content.

Definition check_DescriptionLength (content : list N) : bool :=
  (* /##?\s*(Overview|Description)[\s\S]*?(?=\n##? |\n# |\n$)/i *)
  match match_first
          (literal (Cat [heading (Group 1 (Alt (Lit "Overview") (Lit "Description")));
                         Star false (CharSet false [CSpace; CNotSpace]);
                         section_end]) false true false) content with
  | None => false
  | Some m =>
      50 <? Datatypes.length (trim (join [c " "] (slice1 (split 10 (matched m)))))
  end.

Definition check_TableOfContents (content : list N) : bool :=
  tests (literal (heading (Lit "Table of Contents")) false true false) content.

Definition check_MultipleBadges (content : list N) : bool :=
  1 <? Datatypes.length (or_empty (match_all (literal badge true false false) content)).

Definition check_Images (content : list N) : bool :=
  (* /!\[.*(screenshot|image|demo|preview).*?\]\(.*\)/i *)
  tests (literal (Cat [Lit "!["; Star true Dot;
                       Group 1 (Alt (Lit "screenshot") (Alt (Lit "image")
                                (Alt (Lit "demo") (Lit "preview"))));
                       Star false Dot; Lit "]("; Star true Dot; Lit ")"])
           false true false) content.

Definition check_Links (content : list N) : bool :=
  (* /\[.*?\]\(https?:\/\/.*?\)/ *)
  tests (literal (Cat [Lit "["; Star false Dot; Lit "](http"; Opt (Lit "s");
                       Lit "://"; Star false Dot; Lit ")"])
           false false false) content.

Definition check_Lists (content : list N) : bool :=
  (* /^(\s*[-*+]|\d+\.)\s+/m *)
  tests (literal (Cat [Bol;
                       Group 1 (Alt (Cat [Star true Space;
                                          CharSet false [CChar (c "-"); CChar (c "*");
                                                         CChar (c "+")]])
                                    (Cat [Plus true Digit; Lit "."]));
                       Plus true Space]) false false true) content.

Definition check_Tables (content : list N) : bool :=
  (* /\|.+\|.+\n\|[-\s|:]+\|/m *)
  tests (literal (Cat [Lit "|"; Plus true Dot; Lit "|"; Plus true Dot; NL; Lit "|";
                       Plus true (CharSet false [CChar (c "-"); CSpace;
                                                 CChar (c "|"); CChar (c ":")]);
                       Lit "|"]) false false true) content.

Definition check_InlineCode (content : list N) : bool :=
  (* /`[^`]+`/ *)
  tests (literal (Cat [Lit "`"; Plus true (CharSet true [CChar (c "`")]); Lit "`"])
           false false false) content.

Definition check_Blockquotes (content : list N) : bool :=
  (* /^>\s.+/m *)
  tests (literal (Cat [Bol; Lit ">"; Space; Plus true Dot]) false false true) content.

(** [h.trim().length] of each match of [/^#+\s+/gm]. *)
Definition heading_levels (content : list N) : list nat :=
  (fun h => Datatypes.length (trim h)) <$> or_empty (match_all heading_marks content).

Definition check_ConsistentHeadingLevels (content : list N) : bool :=
  let headings := heading_levels content in
  if 1 <? Datatypes.length headings
  then forallb (fun h => (h =? default 0 (head headings))
                         || (h =? default 0 (head headings) + 1)) headings
  else true.

Definition check_NoPlaceholderText (content : list N) : bool :=
  (* !/(TODO|TBD|lorem ipsum|replace this)/i *)
  negb (tests (literal (Group 1 (Alt (Lit "TODO") (Alt (Lit "TBD")
                          (Alt (Lit "lorem ipsum") (Lit "replace this")))))
                 false true false) content).

Definition check_NoBrokenMarkdown (content : list N) : bool :=
  (* !/(#+[^ \n])|(\[[^\]]*\]\([^)]+\s*$)/m *)
  negb (tests (literal
          (Alt (Group 1 (Cat [Plus true (Lit "#");
                              CharSet true [CChar (c " "); CChar 10]]))
               (Group 2 (Cat [Lit "["; Star true (CharSet true [CChar (c "]")]);
                              Lit "]("; Plus true (CharSet true [CChar (c ")")]);
                              Star true Space; Eol])))
          false false true) content).

Definition check_InstallationHasCode : list N → bool :=
  body_has "Installation" (literal (Lit fence) false false false).

Definition check_UsageHasCode : list N → bool :=
  body_has "Usage" (literal (Lit fence) false false false).

Definition check_ExampleHasCode : list N → bool :=
  body_has "Example" (literal (Lit fence) false false false).

Definition check_ContributingHasGuidelines : list N → bool :=
  (* /(pull request|issue|contribut|guideline|how to)/i *)
  body_has "Contributing"
    (literal (Group 1 (Alt (Lit "pull request") (Alt (Lit "issue")
               (Alt (Lit "contribut") (Alt (Lit "guideline") (Lit "how to"))))))
       false true false).

Definition check_LicenseHasName : list N → bool :=
  (* /(mit|apache|gpl|bsd|mozilla|unlicense|lgpl|cc)/i *)
  body_has "License"
    (literal (Group 1 (Alt (Lit "mit") (Alt (Lit "apache") (Alt (Lit "gpl")
               (Alt (Lit "bsd") (Alt (Lit "mozilla") (Alt (Lit "unlicense")
               (Alt (Lit "lgpl") (Lit "cc")))))))))
       false true false).

(** None of the checks of the source throws: each returns its boolean. *)
Definition returns (f : list N → bool) : list N → completion bool :=
  fun content => Ret (f content).

Definition the_extraCriteria : list ExtraCriterion.t := [
  ExtraCriterion.mk "Proper Title Format" (returns check_ProperTitleFormat)
    3 "Use a clear, properly capitalized project title.";
  ExtraCriterion.mk "Description Length" (returns check_DescriptionLength)
    3 "Provide a more detailed project description.";
  ExtraCriterion.mk "Table of Contents" (returns check_TableOfContents)
    3 "Add a Table of Contents section.";
  ExtraCriterion.mk "Multiple Badges" (returns check_MultipleBadges)
    2 "Add more badges (e.g., build, coverage, npm version).";
  ExtraCriterion.mk "Images/Screenshots" (returns check_Images)
    3 "Add images or screenshots to illustrate your project.";
  ExtraCriterion.mk "Links" (returns check_Links)
    2 "Add relevant links (e.g., documentation, homepage, issues).";
  ExtraCriterion.mk "Lists" (returns check_Lists)
    2 "Use lists to organize information.";
  ExtraCriterion.mk "Tables" (returns check_Tables)
    2 "Add tables for structured data.";
  ExtraCriterion.mk "Inline Code" (returns check_InlineCode)
    2 "Use inline code for commands or filenames.";
  ExtraCriterion.mk "Blockquotes" (returns check_Blockquotes)
    1 "Use blockquotes for tips or notes.";
  ExtraCriterion.mk "Consistent Heading Levels" (returns check_ConsistentHeadingLevels)
    2 "Use consistent heading levels for structure.";
  ExtraCriterion.mk "No Placeholder Text" (returns check_NoPlaceholderText)
    2 "Remove placeholder text like TODO, TBD, or lorem ipsum.";
  ExtraCriterion.mk "No Broken Markdown" (returns check_NoBrokenMarkdown)
    2 "Fix broken Markdown syntax (headings, links, etc).";
  ExtraCriterion.mk "Installation Section Has Code" (returns check_InstallationHasCode)
    2 "Add code blocks to the Installation section.";
  ExtraCriterion.mk "Usage Section Has Code" (returns check_UsageHasCode)
    2 "Add code blocks to the Usage section.";
  ExtraCriterion.mk "Example Section Has Code" (returns check_ExampleHasCode)
    1 "Add code blocks to the Example section.";
  ExtraCriterion.mk "Contributing Section Has Guidelines"
    (returns check_ContributingHasGuidelines)
    1 "Add contribution guidelines to the Contributing section.";
  ExtraCriterion.mk "License Section Has License Name" (returns check_LicenseHasName)
    1 "Specify the license type in the License section."
].

End Catalog.

(** [new ReadMeAnalyzer()]. *)
Definition new_ReadMeAnalyzer : ReadMeAnalyzer :=
  {| sectionCriteria := Catalog.the_sectionCriteria;
     extraCriteria := Catalog.the_extraCriteria |}.

(** ** [analyze] *)

(** The variables of [analyze] that the loops update. *)
Record Locals : Type := mkLocals {
  totalScore : Z;
  maxScore : Z;
  sections : gmap string Outcome.t;
  extras : gmap string Outcome.t;
  suggestions : list string
}.

(** A string in a condition counts as true unless it is empty. *)
Definition truthy (s : string) : bool := negb (bool_decide (s = "")).

(** [if (s) suggestions.push(s)] for a possibly [undefined] string. *)
Definition push_if (s : option string) (l : list string) : list string :=
  match s with
  | Some x => if truthy x then l ++ [x] else l
  | None => l
  end.

(** The entry written for a rule. *)
Definition outcome (present : bool) (score : Z) (suggestion : string) : Outcome.t :=
  {| Outcome.present := present;
     Outcome.score := if present then score else 0;
     Outcome.suggestion := if present then None else Some suggestion |}.

(** One iteration of the section loop; the test may update the RegExp
    object of the criterion. *)
Definition section_step (content : list N) (crit : SectionCriterion.t) (v : Locals)
    : Locals * SectionCriterion.t :=
  let '(present, re) := JS.test (SectionCriterion.regex crit) content in
  ({| totalScore := totalScore v + (if present then SectionCriterion.score crit else 0);
      maxScore := maxScore v + SectionCriterion.score crit;
      sections := <[SectionCriterion.name crit :=
                     outcome present (SectionCriterion.score crit)
                       (SectionCriterion.suggestion crit)]> (sections v);
      extras := extras v;
      suggestions := if present then suggestions v
                     else suggestions v ++ [SectionCriterion.suggestion crit] |},
   {| SectionCriterion.name := SectionCriterion.name crit;
      SectionCriterion.regex := re;
      SectionCriterion.score := SectionCriterion.score crit;
      SectionCriterion.suggestion := SectionCriterion.suggestion crit |}).

Fixpoint section_checks (content : list N) (crits : list SectionCriterion.t) (v : Locals)
    : Locals * list SectionCriterion.t :=
  match crits with
  | [] => (v, [])
  | crit :: crits' =>
      let '(v1, crit1) := section_step content crit v in
      let '(v2, crits1) := section_checks content crits' v1 in
      (v2, crit1 :: crits1)
  end.

(** [try { present = !!crit.check(content) } catch { present = false }] *)
Definition guarded_check (content : list N) (crit : ExtraCriterion.t) : JS.completion bool :=
  JS.try_catch (JS.bind (ExtraCriterion.check crit content) (fun b => JS.Ret b))
               (JS.Ret false).

(** One iteration of the extras loop. *)
Definition extra_step (content : list N) (crit : ExtraCriterion.t) (v : Locals)
    : JS.completion Locals :=
  JS.bind (guarded_check content crit) (fun present =>
  JS.Ret
    {| totalScore := totalScore v + (if present then ExtraCriterion.score crit else 0);
       maxScore := maxScore v + ExtraCriterion.score crit;
       sections := sections v;
       extras := <[ExtraCriterion.name crit :=
                    outcome present (ExtraCriterion.score crit)
                      (ExtraCriterion.suggestion crit)]> (extras v);
       suggestions := if negb present && truthy (ExtraCriterion.suggestion crit)
                      then suggestions v ++ [ExtraCriterion.suggestion crit]
                      else suggestions v |}).

Fixpoint extra_checks (content : list N) (crits : list ExtraCriterion.t) (v : Locals)
    : JS.completion Locals :=
  match crits with
  | [] => JS.Ret v
  | crit :: crits' => JS.bind (extra_step content crit v) (extra_checks content crits')
  end.

(** The length check: score and suggestion from the number of lines. *)
Definition length_check (lines : nat) : Z * option string :=
  if lines <? 10 then (0%Z, Some "README is too short. Add more details.")
  else if 200 <? lines
       then (5%Z, Some "README is very long. Consider splitting into sections or separate docs.")
       else (10%Z, None).

Definition headingCount (content : list N) : nat :=
  length (JS.or_empty (JS.match_all Catalog.heading_marks content)).

Definition fenceCount (content : list N) : nat :=
  length (JS.or_empty (JS.match_all Catalog.fences content)).

(** [(content.match(/```/g) || []).length / 2] *)
Definition codeBlockCount (content : list N) : Q := Z.of_nat (fenceCount content) # 2.

(** [a < b] on numbers. *)
Definition Qlt_bool' (a b : Q) : bool := negb (Qle_bool b a).

(** The formatting check. *)
Definition formatting_check (headings : nat) (codeBlocks : Q) : Z * option string :=
  if headings <? 3 then (0%Z, Some "Add more headings to organize your README.")
  else if Qlt_bool' codeBlocks 1
       then (0%Z, Some "Add code blocks for examples or usage instructions.")
       else (10%Z, None).

(** [analyze] on the content read from the file: the completion of the
    call and the analyzer object afterwards. *)
Definition analyze (self : ReadMeAnalyzer) (content : list N)
    : JS.completion AnalysisReport.t * ReadMeAnalyzer :=
  let lines := JS.split 10 content in
  let v0 := {| totalScore := 0; maxScore := 0; sections := ∅; extras := ∅;
               suggestions := [] |} in
  (* Section checks *)
  let '(v1, crits) := section_checks content (sectionCriteria self) v0 in
  let self' := {| sectionCriteria := crits; extraCriteria := extraCriteria self |} in
  (* Length check *)
  let '(lengthScore, lengthSuggestion) := length_check (length lines) in
  let v2 := {| totalScore := totalScore v1 + lengthScore;
               maxScore := maxScore v1 + 10;
               sections := sections v1; extras := extras v1;
               suggestions := push_if lengthSuggestion (suggestions v1) |} in
  (* Formatting check *)
  let '(formattingScore, formattingSuggestion) :=
    formatting_check (headingCount content) (codeBlockCount content) in
  let v3 := {| totalScore := totalScore v2 + formattingScore;
               maxScore := maxScore v2 + 10;
               sections := sections v2; extras := extras v2;
               suggestions := push_if formattingSuggestion (suggestions v2) |} in
  (* Extra criteria *)
  (JS.bind (extra_checks content (extraCriteria self) v3) (fun v4 =>
   JS.Ret
     {| AnalysisReport.totalScore := totalScore v4;
        AnalysisReport.maxScore := maxScore v4;
        AnalysisReport.sections := sections v4;
        AnalysisReport.length :=
          {| LengthInfo.lines := length lines;
             LengthInfo.score := lengthScore;
             LengthInfo.suggestion := lengthSuggestion |};
        AnalysisReport.formatting :=
          {| FormattingInfo.headings := headingCount content;
             FormattingInfo.codeBlocks := codeBlockCount content;
             FormattingInfo.score := formattingScore;
             FormattingInfo.suggestion := formattingSuggestion |};
        AnalysisReport.extras := extras v4;
        AnalysisReport.suggestions := suggestions v4 |}),
   self').

(** ** What the two loops compute *)

(** Whether a rule is found present: the result of the test, and for an
    extra rule [false] when its check throws. *)
Definition section_present (content : list N) (crit : SectionCriterion.t) : bool :=
  fst (JS.test (SectionCriterion.regex crit) content).

Definition extra_present (content : list N) (crit : ExtraCriterion.t) : bool :=
  match ExtraCriterion.check crit content with
  | JS.Ret b => b
  | JS.Throw _ => false
  end.

Definition section_entry (content : list N) (crit : SectionCriterion.t)
    : string * Outcome.t :=
  (SectionCriterion.name crit,
   outcome (section_present content crit) (SectionCriterion.score crit)
     (SectionCriterion.suggestion crit)).

Definition extra_entry (content : list N) (crit : ExtraCriterion.t)
    : string * Outcome.t :=
  (ExtraCriterion.name crit,
   outcome (extra_present content crit) (ExtraCriterion.score crit)
     (ExtraCriterion.suggestion crit)).

(** The assignments [m[name] = entry], in order. *)
Definition record_all (es : list (string * Outcome.t)) (m : gmap string Outcome.t)
    : gmap string Outcome.t :=
  foldl (fun m e => <[e.1 := e.2]> m) m es.

Definition sum_Z (l : list Z) : Z := foldr Z.add 0%Z l.

(** The points of a list of entries, and of a whole map of entries. *)
Definition awarded (es : list (string * Outcome.t)) : Z :=
  sum_Z ((fun e => Outcome.score e.2) <$> es).

Definition sum_scores (m : gmap string Outcome.t) : Z :=
  map_fold (fun _ o acc => (Outcome.score o + acc)%Z) 0%Z m.

Definition section_weights (crits : list SectionCriterion.t) : Z :=
  sum_Z (SectionCriterion.score <$> crits).

Definition extra_weights (crits : list ExtraCriterion.t) : Z :=
  sum_Z (ExtraCriterion.score <$> crits).

(** The suggestions each loop pushes. *)
Definition section_missing (content : list N) (crits : list SectionCriterion.t)
    : list string :=
  flat_map (fun crit => if section_present content crit then []
                        else [SectionCriterion.suggestion crit]) crits.

Definition extra_missing (content : list N) (crits : list ExtraCriterion.t)
    : list string :=
  flat_map (fun crit =>
    if negb (extra_present content crit) && truthy (ExtraCriterion.suggestion crit)
    then [ExtraCriterion.suggestion crit] else []) crits.

(** [analyze] in closed form: the report it returns. *)

Definition report_of (self : ReadMeAnalyzer) (content : list N) : AnalysisReport.t :=
  let lines := length (JS.split 10 content) in
  let len := length_check lines in
  let fmt := formatting_check (headingCount content) (codeBlockCount content) in
  let ss := section_entry content <$> sectionCriteria self in
  let xs := extra_entry content <$> extraCriteria self in
  {| AnalysisReport.totalScore := 0 + awarded ss + len.1 + fmt.1 + awarded xs;
     AnalysisReport.maxScore :=
       0 + section_weights (sectionCriteria self) + 10 + 10
       + extra_weights (extraCriteria self);
     AnalysisReport.sections := record_all ss ∅;
     AnalysisReport.length :=
       {| LengthInfo.lines := lines; LengthInfo.score := len.1;
          LengthInfo.suggestion := len.2 |};
     AnalysisReport.formatting :=
       {| FormattingInfo.headings := headingCount content;
          FormattingInfo.codeBlocks := codeBlockCount content;
          FormattingInfo.score := fmt.1;
          FormattingInfo.suggestion := fmt.2 |};
     AnalysisReport.extras := record_all xs ∅;
     AnalysisReport.suggestions :=
       push_if fmt.2
         (push_if len.2 ([] ++ section_missing content (sectionCriteria self)))
       ++ extra_missing content (extraCriteria self) |}.

(** *** The report against its own entries

    The suggestions that the entries of a report call for, read off the
    report and the catalogs: one per rule recorded as absent whose
    remediation is not empty, one per metric below its full score that
    carries a remediation; sections first, then length, formatting and
    extras. *)
Definition due_rule (outcomes : gmap string Outcome.t) (name remediation : string)
    : list string :=
  match outcomes !! name with
  | Some o =>
      if negb (Outcome.present o) && negb (bool_decide (remediation = ""))
      then [remediation] else []
  | None => []
  end.

Definition due_metric (score : Z) (remediation : option string) : list string :=
  if (score <? 10)%Z then
    match remediation with
    | Some s => if negb (bool_decide (s = "")) then [s] else []
    | None => []
    end
  else [].

Definition expected_suggestions (self : ReadMeAnalyzer) (r : AnalysisReport.t)
    : list string :=
  flat_map (fun crit => due_rule (AnalysisReport.sections r)
                          (SectionCriterion.name crit)
                          (SectionCriterion.suggestion crit))
           (sectionCriteria self)
  ++ due_metric (LengthInfo.score (AnalysisReport.length r))
                (LengthInfo.suggestion (AnalysisReport.length r))
  ++ due_metric (FormattingInfo.score (AnalysisReport.formatting r))
                (FormattingInfo.suggestion (AnalysisReport.formatting r))
  ++ flat_map (fun crit => due_rule (AnalysisReport.extras r)
                             (ExtraCriterion.name crit)
                             (ExtraCriterion.suggestion crit))
              (extraCriteria self).

(** The number of newline code units of a content. *)
Definition newlines (content : list N) : nat :=
  length (filter (fun ch => ch = 10%N) content).

(** *** Analyzers other than the one of the source

    Two analyzers used to exercise the loops beyond what the catalogs of
    the source do: one whose first extra check throws, and one whose only
    section pattern carries the [g] flag. *)
Definition throwing_rule : ExtraCriterion.t :=
  ExtraCriterion.mk "Throws" (fun _ => JS.Throw "TypeError") 4 "Repair the check.".

Definition analyzer_with_throwing_rule : ReadMeAnalyzer :=
  {| sectionCriteria := Catalog.the_sectionCriteria;
     extraCriteria := throwing_rule :: Catalog.the_extraCriteria |}.

Definition analyzer_with_global_pattern : ReadMeAnalyzer :=
  {| sectionCriteria :=
       [SectionCriterion.mk "Title"
          (JS.literal (JS.Lit "#") true false false) 10 "Add a title."];
     extraCriteria := [] |}.

(** The entry of a rule found absent. *)
Definition absent_entry (crit : ExtraCriterion.t) : Outcome.t :=
  {| Outcome.present := false; Outcome.score := 0;
     Outcome.suggestion := Some (ExtraCriterion.suggestion crit) |}.

(** *** Documents used as examples *)

Definition lf : string := String (ascii_of_nat 10) EmptyString.

(** Three headings and three fence markers: one closed block and one
    fence left open. *)
Definition doc_open_fence : list N :=
  JS.of_string ("# a" +:+ lf +:+ "# b" +:+ lf +:+ "# c" +:+ lf
                +:+ Catalog.fence +:+ lf +:+ "x" +:+ lf +:+ Catalog.fence +:+ lf
                +:+ Catalog.fence).

(** Headings of levels 1, 2, 2 and 4. *)
Definition doc_levels_1224 : list N :=
  JS.of_string ("# a" +:+ lf +:+ "## b" +:+ lf +:+ "## c" +:+ lf +:+ "#### d").

(** The names of the entries of a map that are recorded as present. *)
Definition present_names (m : gmap string Outcome.t) : gset string :=
  dom (filter (fun e => Outcome.present e.2 = true) m).

(** *** Headings

    The headings of a content are the matches of [/^#+\s+/gm]; the level
    of one is the number of its [#] marks. *)
Definition heading_marks_of (content : list N) : list (list N) :=
  JS.or_empty (JS.match_all Catalog.heading_marks content).

Definition hashes (h : list N) : nat := length (filter (fun ch => ch = 35%N) h).

(** The matcher is at index [pos st] of the subject [s]. *)
Definition within (s : list N) (st : JS.mstate) : Prop :=
  JS.rest st = drop (JS.pos st) s.

(** The matcher is somewhere in a subject of [L] code units. *)
Definition aligned (L : nat) (st : JS.mstate) : Prop :=
  JS.pos st + length (JS.rest st) = L.

(** A matcher only needs its continuation on the positions it can reach. *)
Definition respects (L : nat)
    (m1 : JS.mstate → (JS.mstate → option JS.mstate) → option JS.mstate) : Prop :=
  ∀ st k1 k2, aligned L st →
    (∀ st', aligned L st' → JS.pos st ≤ JS.pos st' → k1 st' = k2 st') →
    m1 st k1 = m1 st k2.

(** What a heading match looks like: marks, then white space. *)
Definition is_mark (h : list N) : Prop :=
  ∃ n ws, 0 < n ∧ Forall (fun ch => JS.is_space ch = true) ws
          ∧ h = replicate n 35%N ++ ws.

(** *** Every remediation the analyzer can suggest

    In the order of the phases: the section catalog, the two texts of
    the length check, the two texts of the formatting check, the extras
    catalog. *)
Definition all_remediations (self : ReadMeAnalyzer) : list string :=
  (SectionCriterion.suggestion <$> sectionCriteria self)
  ++ ["README is too short. Add more details.";
      "README is very long. Consider splitting into sections or separate docs."]
  ++ ["Add more headings to organize your README.";
      "Add code blocks for examples or usage instructions."]
  ++ (ExtraCriterion.suggestion <$> extraCriteria self).

(** An entry is well formed for a weight: present with the weight and no
    suggestion, or absent with no points and a suggestion to show. *)
Definition entry_ok (o : Outcome.t) : Prop :=
  if Outcome.present o
  then (0 < Outcome.score o)%Z ∧ Outcome.suggestion o = None
  else Outcome.score o = 0%Z
       ∧ ∃ s, Outcome.suggestion o = Some s ∧ s ≠ "".

(** *** Rules that look inside a section

    Each of these extra rules first finds the text of a section; beside
    it, the name of the section rule with the same heading. *)
Definition scoped_rules : list (string * string) := [
  ("Description Length", "Description");
  ("Installation Section Has Code", "Installation");
  ("Usage Section Has Code", "Usage");
  ("Example Section Has Code", "Example");
  ("Contributing Section Has Guidelines", "Contributing");
  ("License Section Has License Name", "License")
].

(** Whether the entry of that name says present. *)
Definition says_present (m : gmap string Outcome.t) (name : string) : Prop :=
  Outcome.present <$> m !! name = Some true.

(** The pattern [r], run with the flag [i], consumes only code units
    that pass [P]. *)
Fixpoint consumes_only (i : bool) (P : N → bool) (r : JS.regex) : Prop :=
  match r with
  | JS.Empty | JS.Bol | JS.Eol | JS.Look _ => True
  | JS.Chr p => ∀ ch, JS.char_matches i p ch = true → P ch = true
  | JS.CharSet negated items =>
      ∀ ch, JS.set_matches i negated items ch = true → P ch = true
  | JS.Dot => ∀ ch, JS.is_line_terminator ch = false → P ch = true
  | JS.Seq r1 r2 | JS.Alt r1 r2 => consumes_only i P r1 ∧ consumes_only i P r2
  | JS.Star _ r1 | JS.Group _ r1 => consumes_only i P r1
  end.

Definition is_letter (ch : N) : bool :=
  JS.in_range 65 90 ch || JS.in_range 97 122 ch.

Definition not_line_terminator (ch : N) : bool := negb (JS.is_line_terminator ch).

(** Extra rules beside a section rule that they cannot hold without. *)
Definition implied_rules : list (string * string) := [
  ("Proper Title Format", "Title");
  ("Multiple Badges", "Badges");
  ("Images/Screenshots", "Badges")
].

(** *** Changes of letter case

    A map on code units that at most swaps the case of ASCII letters. *)
Definition case_change (f : N → N) : Prop :=
  ∀ ch, JS.canonicalize (f ch) = JS.canonicalize ch.

(** Two contents that differ at most in the case of ASCII letters: the
    same length, and at each position the same code unit or the two
    cases of one letter. *)
Definition same_letter (a b : N) : Prop := JS.canonicalize a = JS.canonicalize b.

Definition case_variant (content content' : list N) : Prop :=
  Forall2 same_letter content content'.

(** The state of the matcher on the mapped subject. *)
Definition map_state (f : N → N) (st : JS.mstate) : JS.mstate :=
  {| JS.pos := JS.pos st; JS.prev := f <$> JS.prev st;
     JS.rest := f <$> JS.rest st; JS.caps := JS.caps st |}.

(** Patterns whose result cannot depend on the case of letters: with
    the [i] flag any pattern; without it, one that names no letter. *)
Definition item_blind (it : JS.class_item) : bool :=
  match it with
  | JS.CChar p => negb (is_letter p)
  | JS.CRange _ _ => false
  | JS.CSpace | JS.CNotSpace | JS.CWord | JS.CDigit => true
  end.

Fixpoint case_blind (i : bool) (r : JS.regex) : bool :=
  match r with
  | JS.Empty | JS.Dot | JS.Bol | JS.Eol => true
  | JS.Chr p => i || negb (is_letter p)
  | JS.CharSet _ items => i || forallb item_blind items
  | JS.Seq r1 r2 | JS.Alt r1 r2 => case_blind i r1 && case_blind i r2
  | JS.Star _ r1 | JS.Group _ r1 | JS.Look r1 => case_blind i r1
  end.

(** The two extra rules that name letters without the [i] flag. *)
Definition case_sensitive_rules : list string := ["Proper Title Format"; "Links"].

(** The weights of the rules among given names. *)
Definition weight_of_rules (names : list string) (crits : list ExtraCriterion.t) : Z :=
  sum_Z ((fun crit => if bool_decide (ExtraCriterion.name crit ∈ names)
                      then ExtraCriterion.score crit else 0%Z) <$> crits).

(** A document that satisfies every rule and both metrics, and one that
    satisfies none. *)
Definition doc_full : list N := JS.of_string (
  "# Project Name" +:+ lf +:+
  "![build](https://x.y/b.svg)" +:+ lf +:+
  "![screenshot](https://x.y/s.png)" +:+ lf +:+
  "# Description" +:+ lf +:+
  "A tool that does many useful things for the people who use it every day."
    +:+ lf +:+
  "# Table of Contents" +:+ lf +:+
  "- [docs](https://x.y/docs)" +:+ lf +:+
  "# Installation" +:+ lf +:+
  Catalog.fence +:+ lf +:+ "npm i" +:+ lf +:+ Catalog.fence +:+ lf +:+
  "# Usage" +:+ lf +:+
  "Run `tool` now." +:+ lf +:+
  Catalog.fence +:+ lf +:+ "tool" +:+ lf +:+ Catalog.fence +:+ lf +:+
  "> a note here" +:+ lf +:+
  "| a | b |" +:+ lf +:+
  "| - | - |" +:+ lf +:+
  "# Example" +:+ lf +:+
  Catalog.fence +:+ lf +:+ "tool x" +:+ lf +:+ Catalog.fence +:+ lf +:+
  "# Contributing" +:+ lf +:+
  "Open a pull request." +:+ lf +:+
  "# License" +:+ lf +:+
  "MIT" +:+ lf).

Definition doc_none : list N :=
  JS.of_string ("TODO" +:+ lf +:+ "### " +:+ lf +:+ "# ").

(** [h] occurs in [s]. *)
Definition occurs_in (s h : list N) : Prop := ∃ pre post, s = pre ++ h ++ post.

(** ** The progress bar of [utils.ts] *)

(** *** Numbers

    A Number is a binary64 floating-point value; the primitive floats
    have the same arithmetic, rounding to nearest, ties to even. *)
Module Num.

(** The Number of an integer; exact below 2^53 in absolute value, which
    covers the scores of a report. *)
Definition of_Z (z : Z) : PrimFloat.float :=
  if (z <? 0)%Z
  then PrimFloat.opp (PrimFloat.of_uint63 (Uint63.of_Z (- z)))
  else PrimFloat.of_uint63 (Uint63.of_Z z).

(** [Math.round(x)]: [x] itself when it is not finite or is integral;
    otherwise the integer nearest to [x], the larger one on a tie, with
    the sign of [x] when that integer is zero. *)
Definition round (x : PrimFloat.float) : PrimFloat.float :=
  match FloatOps.Prim2SF x with
  | SpecFloat.S754_finite s m e =>
      if (0 <=? e)%Z then x
      else
        let d := (2 ^ (- e))%Z in
        let twice := if s then (- 2 * Z.pos m + d)%Z else (2 * Z.pos m + d)%Z in
        let n := (twice / (2 * d))%Z in
        if (n =? 0)%Z then (if s then PrimFloat.neg_zero else PrimFloat.zero)
        else of_Z n
  | _ => x
  end.

Inductive integer_or_infinity : Type :=
  | Finite (z : Z)
  | PlusInfinity
  | MinusInfinity.

(** ToIntegerOrInfinity: NaN and the zeros give 0, the infinities stay,
    anything else is truncated towards zero. *)
Definition to_integer_or_infinity (x : PrimFloat.float) : integer_or_infinity :=
  match FloatOps.Prim2SF x with
  | SpecFloat.S754_nan | SpecFloat.S754_zero _ => Finite 0
  | SpecFloat.S754_infinity s => if s then MinusInfinity else PlusInfinity
  | SpecFloat.S754_finite s m e =>
      let a := if (0 <=? e)%Z then (Z.pos m * 2 ^ e)%Z
               else (Z.pos m / 2 ^ (- e))%Z in
      Finite (if s then (- a)%Z else a)
  end.

(** [s.repeat(count)]: a RangeError for a negative or infinite count.
    The limit an implementation puts on the length of a string is left
    out. *)
Definition repeat (s : list N) (count : PrimFloat.float) : JS.completion (list N) :=
  match to_integer_or_infinity count with
  | Finite n =>
      if (n <? 0)%Z then JS.Throw "RangeError"
      else JS.Ret (concat (replicate (Z.to_nat n) s))
  | PlusInfinity | MinusInfinity => JS.Throw "RangeError"
  end.

(** The string of a Number that [Math.round] returned.  NaN, the zeros
    and the infinities have their names; an integer below 2^53 in
    magnitude has its decimal digits.  Larger Numbers are written with
    the shortest digits that read back to them, which is not modelled:
    [None] stands for them. *)
Definition to_string (x : PrimFloat.float) : option (list N) :=
  match FloatOps.Prim2SF x with
  | SpecFloat.S754_nan => Some (JS.of_string "NaN")
  | SpecFloat.S754_zero _ => Some (JS.of_string "0")
  | SpecFloat.S754_infinity s =>
      Some (JS.of_string (if s then "-Infinity" else "Infinity"))
  | SpecFloat.S754_finite s m e =>
      let a := if (0 <=? e)%Z then (Z.pos m * 2 ^ e)%Z
               else (Z.pos m / 2 ^ (- e))%Z in
      if (a <? 2 ^ 53)%Z
      then Some (JS.of_string (pretty (if s then (- a)%Z else a)))
      else None
  end.

End Num.

(** [formatProgressBar(score, maxScore)].  The styles of chalk depend on
    the terminal; [chalk style s] stands for the styled string.  The
    result is [None] where the percentage has no modelled string. *)
Definition formatProgressBar (chalk : string → list N → list N)
    (score maxScore : PrimFloat.float) : option (JS.completion (list N)) :=
  let percent :=
    Num.round (PrimFloat.mul (PrimFloat.div score maxScore) (Num.of_Z 100)) in
  let barLength := Num.of_Z 30 in
  let filledLength :=
    Num.round (PrimFloat.mul (PrimFloat.div percent (Num.of_Z 100)) barLength) in
  match Num.repeat (chalk "green" [9608%N]) filledLength with
  | JS.Throw e => Some (JS.Throw e)
  | JS.Ret filled =>
      match Num.repeat (chalk "gray" [9617%N])
              (PrimFloat.sub barLength filledLength) with
      | JS.Throw e => Some (JS.Throw e)
      | JS.Ret empty =>
          let bar := filled ++ empty in
          shown ← Num.to_string percent;
          Some (JS.Ret (chalk "bold" (JS.of_string "Score:") ++ JS.of_string " "
                        ++ chalk "cyan" (shown ++ JS.of_string "%")
                        ++ JS.of_string "  " ++ bar))
      end
  end.

(** The line for [percent] per cent with [cells] cells filled out of 30. *)
Definition progress_line (chalk : string → list N → list N) (percent cells : Z)
    : list N :=
  chalk "bold" (JS.of_string "Score:") ++ JS.of_string " "
  ++ chalk "cyan" (JS.of_string (pretty percent) ++ JS.of_string "%")
  ++ JS.of_string "  "
  ++ (concat (replicate (Z.to_nat cells) (chalk "green" [9608%N]))
      ++ concat (replicate (Z.to_nat (30 - cells)) (chalk "gray" [9617%N]))).

(** The nearest integer to a quotient of naturals, the larger on a tie. *)
Definition round_div (a b : Z) : Z := ((2 * a + b) / (2 * b))%Z.

(** *** The section loop over any object with a [test] method

    [crit.regex.test(content)] is a method call, and the section loop has
    no [try] around it.  The catalog of the source holds RegExp objects,
    whose [test] returns a boolean on every string, so [section_checks]
    never meets a fault.  To say what the loop does with a [test] that
    throws, the loop is given once more over criteria whose [regex] is
    any object with a [test] method, which returns or throws like any
    call; [tested] is such an object for a RegExp, and on those the two
    loops agree. *)
Module TestedCriterion.
Record t : Type := mk {
  name : string;
  test : list N → JS.completion bool;
  score : Z;
  suggestion : string
}.
End TestedCriterion.

Definition section_step_tested (content : list N) (crit : TestedCriterion.t)
    (v : Locals) : JS.completion Locals :=
  JS.bind (TestedCriterion.test crit content) (fun present =>
  JS.Ret
    {| totalScore := totalScore v + (if present then TestedCriterion.score crit else 0);
       maxScore := maxScore v + TestedCriterion.score crit;
       sections := <[TestedCriterion.name crit :=
                      outcome present (TestedCriterion.score crit)
                        (TestedCriterion.suggestion crit)]> (sections v);
       extras := extras v;
       suggestions := if present then suggestions v
                      else suggestions v ++ [TestedCriterion.suggestion crit] |}).

Fixpoint section_checks_tested (content : list N) (crits : list TestedCriterion.t)
    (v : Locals) : JS.completion Locals :=
  match crits with
  | [] => JS.Ret v
  | crit :: crits' =>
      JS.bind (section_step_tested content crit v) (section_checks_tested content crits')
  end.

(** [analyze] with this section loop; the three phases after it are
    those of [analyze]. *)
Definition analyze_tested (sectionCrits : list TestedCriterion.t)
    (extraCrits : list ExtraCriterion.t) (content : list N)
    : JS.completion AnalysisReport.t :=
  let lines := JS.split 10 content in
  let v0 := {| totalScore := 0; maxScore := 0; sections := ∅; extras := ∅;
               suggestions := [] |} in
  (* Section checks *)
  JS.bind (section_checks_tested content sectionCrits v0) (fun v1 =>
  (* Length check *)
  let '(lengthScore, lengthSuggestion) := length_check (length lines) in
  let v2 := {| totalScore := totalScore v1 + lengthScore;
               maxScore := maxScore v1 + 10;
               sections := sections v1; extras := extras v1;
               suggestions := push_if lengthSuggestion (suggestions v1) |} in
  (* Formatting check *)
  let '(formattingScore, formattingSuggestion) :=
    formatting_check (headingCount content) (codeBlockCount content) in
  let v3 := {| totalScore := totalScore v2 + formattingScore;
               maxScore := maxScore v2 + 10;
               sections := sections v2; extras := extras v2;
               suggestions := push_if formattingSuggestion (suggestions v2) |} in
  (* Extra criteria *)
  JS.bind (extra_checks content extraCrits v3) (fun v4 =>
  JS.Ret
    {| AnalysisReport.totalScore := totalScore v4;
       AnalysisReport.maxScore := maxScore v4;
       AnalysisReport.sections := sections v4;
       AnalysisReport.length :=
         {| LengthInfo.lines := length lines;
            LengthInfo.score := lengthScore;
            LengthInfo.suggestion := lengthSuggestion |};
       AnalysisReport.formatting :=
         {| FormattingInfo.headings := headingCount content;
            FormattingInfo.codeBlocks := codeBlockCount content;
            FormattingInfo.score := formattingScore;
            FormattingInfo.suggestion := formattingSuggestion |};
       AnalysisReport.extras := extras v4;
       AnalysisReport.suggestions := suggestions v4 |})).

(** A criterion of the source as a tested criterion: the [test] of its
    RegExp object, which returns. *)
Definition tested (crit : SectionCriterion.t) : TestedCriterion.t :=
  {| TestedCriterion.name := SectionCriterion.name crit;
     TestedCriterion.test :=
       fun content => JS.Ret (JS.test (SectionCriterion.regex crit) content).1;
     TestedCriterion.score := SectionCriterion.score crit;
     TestedCriterion.suggestion := SectionCriterion.suggestion crit |}.

(** A section criterion whose [test] throws, in front of the catalog of
    the source. *)
Definition throwing_section : TestedCriterion.t :=
  TestedCriterion.mk "Throws" (fun _ => JS.Throw "TypeError") 4 "Repair the test.".

Definition sections_with_throwing_test : list TestedCriterion.t :=
  throwing_section :: (tested <$> Catalog.the_sectionCriteria).

(** *** The suggestions a document calls for

    The rules that the content does not satisfy, in catalog order, by
    their own tests on the content. *)
Definition unsatisfied_sections (content : list N) (crits : list SectionCriterion.t)
    : list SectionCriterion.t :=
  filter (fun crit => section_present content crit = false) crits.

Definition unsatisfied_extras (content : list N) (crits : list ExtraCriterion.t)
    : list ExtraCriterion.t :=
  filter (fun crit => extra_present content crit = false) crits.

(** ** Properties *)

(** *** The matcher on small subjects *)

Example greedy_and_lazy :
  JS.matched <$> JS.match_first
      (JS.literal (JS.Cat [JS.Lit "a"; JS.Star true JS.Dot; JS.Lit "b"])
         false false false) (JS.of_string "xaabbb")
    = Some (JS.of_string "aabbb")
  ∧ JS.matched <$> JS.match_first
      (JS.literal (JS.Cat [JS.Lit "a"; JS.Star false JS.Dot; JS.Lit "b"])
         false false false) (JS.of_string "xaabbb")
    = Some (JS.of_string "aab").
Proof. split; reflexivity. Qed.

Example section_body_stops_at_next_heading :
  (JS.match_first (Catalog.section_body "Usage")
     (JS.of_string ("# T" +:+ lf +:+ "## usage" +:+ lf +:+ "run it" +:+ lf
                    +:+ "## License" +:+ lf))) ≫= (fun mr => JS.group mr 1)
  = Some (JS.of_string (lf +:+ "run it")).
Proof. reflexivity. Qed.

Example line_anchors :
  JS.or_empty (JS.match_all Catalog.heading_marks
     (JS.of_string ("# a" +:+ lf +:+ "x # b" +:+ lf +:+ "### c" +:+ lf +:+ "#d")))
  = [JS.of_string "# "; JS.of_string "### "].
Proof. reflexivity. Qed.

Example split_join_trim :
  JS.split 10 (JS.of_string ("a" +:+ lf +:+ lf +:+ "b"))
    = [JS.of_string "a"; []; JS.of_string "b"]
  ∧ JS.split 10 [] = [[]]
  ∧ JS.join (JS.of_string " ") [JS.of_string "a"; []; JS.of_string "b"]
    = JS.of_string "a  b"
  ∧ JS.trim (JS.of_string (lf +:+ "  a b  " +:+ lf)) = JS.of_string "a b".
Proof. repeat split; reflexivity. Qed.

(** *** The matcher never runs out of fuel

    The star of the matcher and the loop of a global match recurse on a
    bound computed from the subject.  The bound is never the reason for
    a result: any larger bound gives the same one. *)

Section MatcherFuel.
Import JS.
Variables (i m : bool) (L : nat).

Lemma step_inv t st k res :
  step t st k = Some res →
  ∃ ch cs, rest st = ch :: cs ∧ t ch = true ∧ k (advance ch cs st) = Some res.
Proof.
  unfold step. destruct (rest st) as [|ch cs]; [done|].
  destruct (t ch) eqn:Ht; [|done]. intros Hk. by exists ch, cs.
Qed.


Lemma aligned_advance ch cs st :
  aligned L st → rest st = ch :: cs →
  aligned L (advance ch cs st) ∧ pos st ≤ pos (advance ch cs st).
Proof. unfold aligned. intros Ha Hr. rewrite Hr in Ha. cbn in *. lia. Qed.

Lemma step_respects t : respects L (step t).
Proof.
  intros st k1 k2 Ha Hk. unfold step.
  destruct (rest st) as [|ch cs] eqn:Hr; [done|].
  destruct (t ch); [|done].
  destruct (aligned_advance ch cs st Ha Hr). by apply Hk.
Qed.

Lemma star_loop_unfold g m1 k fuel st :
  star_loop g m1 k (S fuel) st =
  if g then
    match m1 st (fun st1 =>
            if pos st1 =? pos st then None else star_loop g m1 k fuel st1) with
    | Some res => Some res
    | None => k st
    end
  else
    match k st with
    | Some res => Some res
    | None =>
        m1 st (fun st1 =>
          if pos st1 =? pos st then None else star_loop g m1 k fuel st1)
    end.
Proof. reflexivity. Qed.

Lemma star_loop_respects g m1 k1 k2 fuel st :
  respects L m1 → aligned L st →
  (∀ st', aligned L st' → pos st ≤ pos st' → k1 st' = k2 st') →
  star_loop g m1 k1 fuel st = star_loop g m1 k2 fuel st.
Proof.
  intros Hm1. revert st. induction fuel as [|fuel IH]; intros st Ha Hk; [done|].
  cbn [star_loop].
  rewrite (Hk st Ha (Nat.le_refl _)).
  rewrite (Hm1 st
    (fun st1 => if pos st1 =? pos st then None else star_loop g m1 k1 fuel st1)
    (fun st1 => if pos st1 =? pos st then None else star_loop g m1 k2 fuel st1) Ha);
    [done|].
  intros st1 Ha1 Hp1. destruct (pos st1 =? pos st); [done|].
  apply IH; [done|]. intros st' Ha' Hp'. apply Hk; [done | lia].
Qed.

Lemma rmatch_respects r : respects L (rmatch i m r).
Proof.
  induction r as [|p|negated items| | | |r1 IH1 r2 IH2|r1 IH1 r2 IH2|g r1 IH1
                  |n r1 IH1|r1 IH1]; intros st k1 k2 Ha Hk; cbn [rmatch].
  - by apply Hk.
  - by apply step_respects.
  - by apply step_respects.
  - by apply step_respects.
  - destruct (at_bol m st); [by apply Hk | done].
  - destruct (at_eol m st); [by apply Hk | done].
  - apply IH1; [done|]. intros st1 Ha1 Hp1.
    apply IH2; [done|]. intros st2 Ha2 Hp2. apply Hk; [done | lia].
  - by rewrite (IH1 st k1 k2 Ha Hk), (IH2 st k1 k2 Ha Hk).
  - by apply star_loop_respects.
  - apply IH1; [done|]. intros st1 Ha1 Hp1. by apply Hk.
  - destruct (rmatch i m r1 st Some); [|done]. by apply Hk.
Qed.

(** One more unit of fuel changes nothing once the fuel exceeds what is
    left of the subject. *)
Lemma star_loop_fuel g m1 k fuel st :
  respects L m1 → aligned L st → L - pos st < fuel →
  star_loop g m1 k (S fuel) st = star_loop g m1 k fuel st.
Proof.
  intros Hm1. revert st. induction fuel as [|fuel IH]; intros st Ha Hfuel; [lia|].
  rewrite (star_loop_unfold g m1 k (S fuel) st), (star_loop_unfold g m1 k fuel st).
  rewrite (Hm1 st
    (fun st1 => if pos st1 =? pos st then None else star_loop g m1 k (S fuel) st1)
    (fun st1 => if pos st1 =? pos st then None else star_loop g m1 k fuel st1) Ha);
    [done|].
  intros st1 Ha1 Hp1. destruct (Nat.eqb_spec (pos st1) (pos st)); [done|].
  apply IH; [done|]. unfold aligned in *. lia.
Qed.

(** The star of [rmatch] is the star with any larger bound. *)
Lemma star_fuel_enough g r1 k st extra :
  aligned L st →
  star_loop g (rmatch i m r1) k (S (length (rest st)) + extra) st
  = rmatch i m (Star g r1) st k.
Proof.
  intros Ha. cbn [rmatch]. induction extra as [|extra IH].
  - by rewrite Nat.add_0_r.
  - rewrite <- IH, Nat.add_succ_r.
    apply star_loop_fuel; [apply rmatch_respects | done |].
    unfold aligned in Ha. lia.
Qed.

(** A successful match hands over a position further on in the subject. *)
Lemma rmatch_progress r st k res :
  aligned L st → rmatch i m r st k = Some res →
  ∃ st', aligned L st' ∧ pos st ≤ pos st' ∧ k st' = Some res.
Proof.
  revert st k res.
  induction r as [|p|negated items| | | |r1 IH1 r2 IH2|r1 IH1 r2 IH2|g r1 IH1
                  |n r1 IH1|r1 IH1]; intros st k res Ha; cbn [rmatch].
  - intros Hk. by exists st.
  - intros H. apply step_inv in H as (ch & cs & Hr & _ & Hk).
    destruct (aligned_advance ch cs st Ha Hr). by exists (advance ch cs st).
  - intros H. apply step_inv in H as (ch & cs & Hr & _ & Hk).
    destruct (aligned_advance ch cs st Ha Hr). by exists (advance ch cs st).
  - intros H. apply step_inv in H as (ch & cs & Hr & _ & Hk).
    destruct (aligned_advance ch cs st Ha Hr). by exists (advance ch cs st).
  - destruct (at_bol m st); [|done]. intros Hk. by exists st.
  - destruct (at_eol m st); [|done]. intros Hk. by exists st.
  - intros H. apply IH1 in H as (st1 & Ha1 & Hp1 & H); [|done].
    apply IH2 in H as (st2 & Ha2 & Hp2 & H); [|done].
    exists st2. repeat split; [done | lia | done].
  - destruct (rmatch i m r1 st k) as [res1|] eqn:H1.
    + intros [= <-]. by apply IH1 in H1.
    + intros H2. by apply IH2 in H2.
  - generalize (S (length (rest st))). intros fuel. revert st res Ha.
    induction fuel as [|fuel IHf]; intros st res Ha; [done|].
    cbn [star_loop].
    assert (∀ res',
      rmatch i m r1 st (fun st1 =>
        if pos st1 =? pos st then None else star_loop g (rmatch i m r1) k fuel st1)
      = Some res' →
      ∃ st', aligned L st' ∧ pos st ≤ pos st' ∧ k st' = Some res') as Hiter.
    { intros res' H. apply IH1 in H as (st1 & Ha1 & Hp1 & H); [|done].
      destruct (pos st1 =? pos st); [done|].
      apply IHf in H as (st' & Ha' & Hp' & H); [|done].
      exists st'. repeat split; [done | lia | done]. }
    destruct g.
    + destruct (rmatch i m r1 st _) as [res1|] eqn:H1.
      * intros [= <-]. by apply Hiter.
      * intros Hk. by exists st.
    + destruct (k st) as [res1|] eqn:Hk.
      * intros [= <-]. by exists st.
      * apply Hiter.
  - intros H. apply IH1 in H as (st1 & Ha1 & Hp1 & H); [|done].
    exists (set_cap n (pos st, pos st1) st1). by repeat split.
  - destruct (rmatch i m r1 st Some) as [st1|]; [|done].
    intros Hk. exists (with_caps (caps st1) st). by repeat split.
Qed.

Lemma search_progress r st b e :
  aligned L st → search i m r st (rest st) = Some (b, e) →
  aligned L b ∧ pos st ≤ pos b ∧ aligned L e ∧ pos b ≤ pos e.
Proof.
  remember (rest st) as cs eqn:Hcs. revert st Hcs.
  induction cs as [|ch cs IH]; intros st Hcs Ha; cbn [search];
    destruct (rmatch i m r st Some) as [res|] eqn:Hm; try done.
  - intros [= <- <-].
    apply rmatch_progress in Hm as (st' & Ha' & Hp' & [= <-]); done.
  - intros [= <- <-].
    apply rmatch_progress in Hm as (st' & Ha' & Hp' & [= <-]); done.
  - intros H. destruct (aligned_advance ch cs st Ha (eq_sym Hcs)) as [Ha1 Hp1].
    apply (IH (advance ch cs st) eq_refl Ha1) in H as (Hb & Hpb & He & Hpe).
    repeat split; [done | lia | done | done].
Qed.

Lemma state_at_aligned n st st' :
  aligned L st → state_at n st = Some st' → aligned L st' ∧ pos st' = pos st + n.
Proof.
  revert st. induction n as [|n IH]; intros st Ha; cbn [state_at].
  - intros [= <-]. split; [done | lia].
  - destruct (rest st) as [|ch cs] eqn:Hr; [done|]. intros H.
    destruct (aligned_advance ch cs st Ha Hr) as [Ha1 _].
    apply IH in H as [Ha' Hp']; [|done]. split; [done|]. cbn in Hp'. lia.
Qed.

Lemma state_at_beyond n st : length (rest st) < n → state_at n st = None.
Proof.
  revert st. induction n as [|n IH]; intros st Hn; [lia|]. cbn [state_at].
  destruct (rest st) as [|ch cs] eqn:Hr; [done|].
  apply IH. cbn in *. lia.
Qed.
End MatcherFuel.

(** After a successful [exec] a global expression has moved on, unless
    the match is empty, and it keeps its pattern and flags. *)
Lemma exec_global re s mr re' :
  JS.global re = true → JS.exec re s = (Some mr, re') →
  JS.lastIndex re ≤ JS.lastIndex re'
  ∧ (JS.matched mr ≠ [] → JS.lastIndex re < JS.lastIndex re')
  ∧ re' = JS.set_lastIndex (JS.lastIndex re') re.
Proof.
  intros Hg. unfold JS.exec. rewrite Hg.
  destruct (JS.state_at _ _) as [st|] eqn:Hst; [|done].
  apply (state_at_aligned (length s)) in Hst as [Ha Hp]; [|done].
  destruct (JS.search _ _ _ st (JS.rest st)) as [[b e]|] eqn:Hsearch; [|done].
  apply (search_progress _ _ (length s)) in Hsearch as (Hb & Hpb & He & Hpe);
    [|done].
  intros [= <- <-]. cbn in *. split; [lia|]. split; [|done].
  intros Hne. destruct (decide (JS.pos e = JS.pos b)) as [Heq|]; [|lia].
  exfalso. apply Hne. unfold JS.substring. by rewrite Heq, Nat.sub_diag.
Qed.

Lemma exec_beyond re s :
  JS.global re = true → length s < JS.lastIndex re → (JS.exec re s).1 = None.
Proof.
  intros Hg Hlen. unfold JS.exec. rewrite Hg.
  by rewrite state_at_beyond.
Qed.

(** The loop of a global match stops by itself within its bound. *)
Lemma match_loop_fuel fuel re s :
  JS.global re = true → length s < JS.lastIndex re + fuel →
  JS.match_loop (S fuel) re s = JS.match_loop fuel re s.
Proof.
  revert re. induction fuel as [|fuel IH]; intros re Hg Hlen.
  - cbn [JS.match_loop].
    pose proof (exec_beyond re s Hg) as Hnone.
    destruct (JS.exec re s) as [[mr|] re']; [|done].
    cbn in Hnone. discriminate Hnone. lia.
  - change (JS.match_loop (S (S fuel)) re s) with
      (match JS.exec re s with
       | (None, _) => []
       | (Some mr, re') =>
           JS.matched mr ::
           JS.match_loop (S fuel)
             (if bool_decide (JS.matched mr = [])
              then JS.set_lastIndex (S (JS.lastIndex re')) re' else re') s
       end).
    cbn [JS.match_loop].
    destruct (JS.exec re s) as [[mr|] re'] eqn:Hexec; [|done].
    apply exec_global in Hexec as (Hle & Hlt & Hre'); [|done].
    assert (JS.global re' = true) as Hg' by (by rewrite Hre').
    f_equal. apply IH.
    + by case_bool_decide.
    + case_bool_decide; cbn; [lia|]. specialize (Hlt ltac:(done)). lia.
Qed.

(** [match_all] on a global expression is the loop with any larger
    bound. *)
Lemma match_all_fuel_enough re s extra :
  JS.global re = true →
  JS.match_loop (S (length s) + extra) (JS.set_lastIndex 0 re) s
  = JS.match_loop (S (length s)) (JS.set_lastIndex 0 re) s.
Proof.
  intros Hg. induction extra as [|extra IH]; [by rewrite Nat.add_0_r|].
  rewrite <- IH, Nat.add_succ_r.
  apply match_loop_fuel; [done | cbn; lia].
Qed.

Lemma sum_Z_app l1 l2 : sum_Z (l1 ++ l2) = (sum_Z l1 + sum_Z l2)%Z.
Proof. unfold sum_Z. induction l1 as [|x l1 IH]; cbn; [done | rewrite IH; lia]. Qed.

Section Loops.
Variable content : list N.

Lemma section_step_fst crit v :
  (section_step content crit v).1 =
  {| totalScore := totalScore v + Outcome.score (section_entry content crit).2;
     maxScore := maxScore v + SectionCriterion.score crit;
     sections := <[(section_entry content crit).1 := (section_entry content crit).2]>
                   (sections v);
     extras := extras v;
     suggestions := suggestions v ++ section_missing content [crit] |}.
Proof.
  unfold section_step, section_entry, section_missing, section_present. cbn.
  destruct (JS.test (SectionCriterion.regex crit) content) as [present re]; cbn.
  destruct present; cbn; by rewrite ?app_nil_r.
Qed.

(** The section loop in closed form. *)
Lemma section_checks_fst crits v :
  (section_checks content crits v).1 =
  {| totalScore := totalScore v + awarded (section_entry content <$> crits);
     maxScore := maxScore v + section_weights crits;
     sections := record_all (section_entry content <$> crits) (sections v);
     extras := extras v;
     suggestions := suggestions v ++ section_missing content crits |}.
Proof.
  revert v. induction crits as [|crit crits IH]; intros v.
  - destruct v. cbn. f_equal; try lia. by rewrite app_nil_r.
  - cbn [section_checks].
    pose proof (section_step_fst crit v) as Hstep.
    destruct (section_step content crit v) as [v1 crit1]. cbn in Hstep.
    specialize (IH v1).
    destruct (section_checks content crits v1) as [v2 crits1]. cbn in IH |- *.
    subst v2 v1. unfold awarded, section_weights, section_missing, sum_Z. cbn.
    f_equal; try lia.
    by rewrite <- !app_assoc.
Qed.

Lemma guarded_check_ret crit :
  guarded_check content crit = JS.Ret (extra_present content crit).
Proof.
  unfold guarded_check, extra_present.
  by destruct (ExtraCriterion.check crit content).
Qed.

Lemma extra_step_ret crit v :
  extra_step content crit v = JS.Ret
  {| totalScore := totalScore v + Outcome.score (extra_entry content crit).2;
     maxScore := maxScore v + ExtraCriterion.score crit;
     sections := sections v;
     extras := <[(extra_entry content crit).1 := (extra_entry content crit).2]>
                 (extras v);
     suggestions := suggestions v ++ extra_missing content [crit] |}.
Proof.
  unfold extra_step. rewrite guarded_check_ret.
  unfold extra_missing, extra_entry. cbn.
  destruct (extra_present content crit); cbn;
    destruct (truthy (ExtraCriterion.suggestion crit)); cbn;
    by rewrite ?app_nil_r.
Qed.

(** The extras loop always completes, in closed form. *)
Lemma extra_checks_ret crits v :
  extra_checks content crits v = JS.Ret
  {| totalScore := totalScore v + awarded (extra_entry content <$> crits);
     maxScore := maxScore v + extra_weights crits;
     sections := sections v;
     extras := record_all (extra_entry content <$> crits) (extras v);
     suggestions := suggestions v ++ extra_missing content crits |}.
Proof.
  revert v. induction crits as [|crit crits IH]; intros v.
  - destruct v. cbn. f_equal. f_equal; try lia. by rewrite app_nil_r.
  - cbn [extra_checks]. rewrite extra_step_ret. cbn [JS.bind].
    rewrite IH. unfold awarded, extra_weights, extra_missing, sum_Z. cbn.
    f_equal. f_equal; try lia.
    by rewrite <- !app_assoc.
Qed.
End Loops.

(** *** Entries recorded in a map *)

Lemma record_all_snoc es e m :
  record_all (es ++ [e]) m = <[e.1 := e.2]> (record_all es m).
Proof. unfold record_all. by rewrite foldl_snoc. Qed.

Lemma record_all_lookup_notin es m (k : string) :
  k ∉ es.*1 → record_all es m !! k = m !! k.
Proof.
  induction es as [|e es IH] using rev_ind; intros Hk; [done|].
  rewrite fmap_app, not_elem_of_app in Hk. destruct Hk as [Hes He].
  rewrite record_all_snoc, lookup_insert_ne; [by apply IH|].
  cbn in He. set_solver.
Qed.

Lemma record_all_lookup es m (k : string) o :
  NoDup es.*1 → (k, o) ∈ es → record_all es m !! k = Some o.
Proof.
  induction es as [|e es IH] using rev_ind; intros Hnd Hin; [by apply elem_of_nil in Hin|].
  rewrite fmap_app in Hnd. apply NoDup_app in Hnd as (Hnd & Hdisj & _).
  rewrite record_all_snoc. apply elem_of_app in Hin as [Hin|Hin].
  - rewrite lookup_insert_ne; [by apply IH|].
    intros <-. apply (Hdisj e.1); [|cbn; set_solver].
    apply list_elem_of_fmap. by exists (e.1, o).
  - apply list_elem_of_singleton in Hin. subst e. cbn. apply lookup_insert_eq.
Qed.

Lemma sum_scores_insert m (k : string) o :
  m !! k = None → sum_scores (<[k := o]> m) = (Outcome.score o + sum_scores m)%Z.
Proof.
  intros Hk. unfold sum_scores.
  rewrite map_fold_insert_L; [done | intros; lia | done].
Qed.

(** With distinct names, every assignment adds an entry, and the points
    of the map are the points of the entries. *)
Lemma record_all_fresh es m :
  NoDup es.*1 → (∀ k, k ∈ es.*1 → m !! k = None) →
  sum_scores (record_all es m) = (sum_scores m + awarded es)%Z
  ∧ size (record_all es m) = size m + length es.
Proof.
  induction es as [|e es IH] using rev_ind; intros Hnd Hfresh.
  - cbn. unfold awarded, sum_Z. cbn. lia.
  - rewrite fmap_app in Hnd. apply NoDup_app in Hnd as (Hnd & Hdisj & _).
    destruct IH as [IHs IHn]; [done | |].
    { intros k Hk. apply Hfresh. rewrite fmap_app. apply elem_of_app. by left. }
    assert (record_all es m !! e.1 = None) as Hnone.
    { rewrite record_all_lookup_notin.
      - apply Hfresh. rewrite fmap_app. cbn. set_solver.
      - intros Hin. apply (Hdisj e.1 Hin). cbn. apply list_elem_of_here. }
    rewrite record_all_snoc. split.
    + rewrite sum_scores_insert, IHs by done.
      unfold awarded. rewrite fmap_app, sum_Z_app. unfold sum_Z. cbn. lia.
    + rewrite map_size_insert_None, IHn by done.
      rewrite length_app. cbn. lia.
Qed.

Lemma section_entry_names content crits :
  (section_entry content <$> crits).*1 = SectionCriterion.name <$> crits.
Proof. induction crits as [|c crits IH]; cbn; [done | by rewrite IH]. Qed.

Lemma extra_entry_names content crits :
  (extra_entry content <$> crits).*1 = ExtraCriterion.name <$> crits.
Proof. induction crits as [|c crits IH]; cbn; [done | by rewrite IH]. Qed.

(** [analyze] returns on every analyzer and every content: no exception
    leaves it. *)
Lemma analyze_ret self content :
  (analyze self content).1 = JS.Ret (report_of self content).
Proof.
  unfold analyze, report_of.
  pose proof (section_checks_fst content (sectionCriteria self)
    {| totalScore := 0; maxScore := 0; sections := ∅; extras := ∅;
       suggestions := [] |}) as Hs.
  destruct (section_checks content (sectionCriteria self) _) as [v1 crits].
  cbn in Hs. subst v1.
  destruct (length_check _) as [lengthScore lengthSuggestion].
  destruct (formatting_check _ _) as [formattingScore formattingSuggestion].
  cbn. by rewrite extra_checks_ret.
Qed.

(** *** The catalogs of the source *)

Lemma section_names_NoDup :
  NoDup (SectionCriterion.name <$> Catalog.the_sectionCriteria).
Proof. by apply (bool_decide_unpack _); vm_compute. Qed.

Lemma extra_names_NoDup :
  NoDup (ExtraCriterion.name <$> Catalog.the_extraCriteria).
Proof. by apply (bool_decide_unpack _); vm_compute. Qed.

Lemma section_weights_nonneg :
  Forall (fun crit => (0 ≤ SectionCriterion.score crit)%Z) Catalog.the_sectionCriteria.
Proof. repeat constructor; cbn; lia. Qed.

Lemma extra_weights_nonneg :
  Forall (fun crit => (0 ≤ ExtraCriterion.score crit)%Z) Catalog.the_extraCriteria.
Proof. repeat constructor; cbn; lia. Qed.

Lemma section_suggestions_nonempty :
  Forall (fun crit => SectionCriterion.suggestion crit ≠ "") Catalog.the_sectionCriteria.
Proof. repeat constructor; cbn; discriminate. Qed.

Lemma weights_total :
  section_weights Catalog.the_sectionCriteria = 65%Z
  ∧ extra_weights Catalog.the_extraCriteria = 36%Z.
Proof. split; reflexivity. Qed.

(** *** Scores *)

Lemma sum_scores_empty : sum_scores ∅ = 0%Z.
Proof. unfold sum_scores. by rewrite map_fold_empty. Qed.

Lemma report_sections_sum self content :
  NoDup (SectionCriterion.name <$> sectionCriteria self) →
  sum_scores (AnalysisReport.sections (report_of self content))
    = awarded (section_entry content <$> sectionCriteria self)
  ∧ size (AnalysisReport.sections (report_of self content))
    = length (sectionCriteria self).
Proof.
  intros Hnd. cbn.
  destruct (record_all_fresh (section_entry content <$> sectionCriteria self) ∅)
    as [Hs Hn].
  - by rewrite section_entry_names.
  - intros k _. apply lookup_empty.
  - rewrite Hs, Hn, sum_scores_empty, map_size_empty, length_fmap. split; lia.
Qed.

Lemma report_extras_sum self content :
  NoDup (ExtraCriterion.name <$> extraCriteria self) →
  sum_scores (AnalysisReport.extras (report_of self content))
    = awarded (extra_entry content <$> extraCriteria self)
  ∧ size (AnalysisReport.extras (report_of self content))
    = length (extraCriteria self).
Proof.
  intros Hnd. cbn.
  destruct (record_all_fresh (extra_entry content <$> extraCriteria self) ∅)
    as [Hs Hn].
  - by rewrite extra_entry_names.
  - intros k _. apply lookup_empty.
  - rewrite Hs, Hn, sum_scores_empty, map_size_empty, length_fmap. split; lia.
Qed.

(** C1. For every document the report's [totalScore] is the sum of the
    [score] fields of its 8 section entries, of the length entry, of the
    formatting entry and of its 18 extra entries; [maxScore] does not
    depend on the document: it is the sum of the section weights (65),
    the extra weights and 10 for each of the two metrics, 121 in all. *)
Theorem total_is_sum_of_entries (content : list N) :
  ∃ r, (analyze new_ReadMeAnalyzer content).1 = JS.Ret r
    ∧ size (AnalysisReport.sections r) = 8
    ∧ size (AnalysisReport.extras r) = 18
    ∧ AnalysisReport.totalScore r =
        (sum_scores (AnalysisReport.sections r)
         + LengthInfo.score (AnalysisReport.length r)
         + FormattingInfo.score (AnalysisReport.formatting r)
         + sum_scores (AnalysisReport.extras r))%Z
    ∧ AnalysisReport.maxScore r =
        (section_weights Catalog.the_sectionCriteria
         + extra_weights Catalog.the_extraCriteria + 10 + 10)%Z
    ∧ section_weights Catalog.the_sectionCriteria = 65%Z
    ∧ AnalysisReport.maxScore r = 121%Z.
Proof.
  exists (report_of new_ReadMeAnalyzer content).
  split; [apply analyze_ret|].
  destruct (report_sections_sum new_ReadMeAnalyzer content section_names_NoDup)
    as [Hs Hsn].
  destruct (report_extras_sum new_ReadMeAnalyzer content extra_names_NoDup)
    as [Hx Hxn].
  destruct weights_total as [Hw Hxw].
  rewrite Hs, Hx, Hsn, Hxn.
  repeat split; try reflexivity; cbn -[awarded section_entry extra_entry
    section_weights extra_weights Catalog.the_sectionCriteria
    Catalog.the_extraCriteria]; try rewrite Hw; try rewrite Hxw; lia.
Qed.

Lemma awarded_sections_bounds content crits :
  Forall (fun crit => (0 ≤ SectionCriterion.score crit)%Z) crits →
  (0 ≤ awarded (section_entry content <$> crits) ≤ section_weights crits)%Z.
Proof.
  unfold awarded, section_weights, sum_Z.
  induction 1 as [|crit crits Hc _ IH]; cbn; [lia|].
  destruct (section_present content crit); cbn; lia.
Qed.

Lemma awarded_extras_bounds content crits :
  Forall (fun crit => (0 ≤ ExtraCriterion.score crit)%Z) crits →
  (0 ≤ awarded (extra_entry content <$> crits) ≤ extra_weights crits)%Z.
Proof.
  unfold awarded, extra_weights, sum_Z.
  induction 1 as [|crit crits Hc _ IH]; cbn; [lia|].
  destruct (extra_present content crit); cbn; lia.
Qed.

Lemma length_check_bounds n : (0 ≤ (length_check n).1 ≤ 10)%Z.
Proof. unfold length_check. repeat case_match; cbn; lia. Qed.

Lemma formatting_check_bounds h b : (0 ≤ (formatting_check h b).1 ≤ 10)%Z.
Proof. unfold formatting_check. repeat case_match; cbn; lia. Qed.

(** C2. For every document the report satisfies
    [0 <= totalScore <= maxScore]. *)
Theorem total_within_bounds (content : list N) :
  ∃ r, (analyze new_ReadMeAnalyzer content).1 = JS.Ret r
    ∧ (0 ≤ AnalysisReport.totalScore r ≤ AnalysisReport.maxScore r)%Z.
Proof.
  exists (report_of new_ReadMeAnalyzer content).
  split; [apply analyze_ret|].
  pose proof (awarded_sections_bounds content _ section_weights_nonneg).
  pose proof (awarded_extras_bounds content _ extra_weights_nonneg).
  pose proof (length_check_bounds (length (JS.split 10 content))).
  pose proof (formatting_check_bounds (headingCount content) (codeBlockCount content)).
  cbn -[awarded section_entry extra_entry section_weights extra_weights
        Catalog.the_sectionCriteria Catalog.the_extraCriteria length_check
        formatting_check].
  lia.
Qed.

(** *** The length metric *)

(** Splitting on the newline gives one piece more than there are
    newlines: never an empty array. *)
Lemma split_length sep s :
  length (JS.split sep s) = S (length (filter (fun ch => ch = sep) s)).
Proof.
  induction s as [|ch s IH]; [done|].
  cbn [JS.split]. rewrite filter_cons.
  destruct (N.eqb_spec ch sep) as [->|Hne].
  - rewrite decide_True by done. cbn. by rewrite IH.
  - rewrite decide_False by done.
    destruct (JS.split sep s) as [|h t]; cbn in *; lia.
Qed.

(** C5. The length metric by line count: fewer than 10 lines score 0
    with the too-short remediation, 10 to 200 lines score 10 with no
    remediation, more than 200 lines score 5 with the very-long
    remediation; the metric adds 10 to [maxScore] whatever the count. *)
Theorem length_metric_buckets (content : list N) :
  ∃ r, (analyze new_ReadMeAnalyzer content).1 = JS.Ret r
    ∧ LengthInfo.lines (AnalysisReport.length r) = S (newlines content)
    ∧ (LengthInfo.lines (AnalysisReport.length r) < 10 →
         LengthInfo.score (AnalysisReport.length r) = 0%Z
         ∧ LengthInfo.suggestion (AnalysisReport.length r)
           = Some "README is too short. Add more details.")
    ∧ (10 ≤ LengthInfo.lines (AnalysisReport.length r) ≤ 200 →
         LengthInfo.score (AnalysisReport.length r) = 10%Z
         ∧ LengthInfo.suggestion (AnalysisReport.length r) = None)
    ∧ (200 < LengthInfo.lines (AnalysisReport.length r) →
         LengthInfo.score (AnalysisReport.length r) = 5%Z
         ∧ LengthInfo.suggestion (AnalysisReport.length r)
           = Some "README is very long. Consider splitting into sections or separate docs.")
    ∧ (AnalysisReport.maxScore r
       - (section_weights Catalog.the_sectionCriteria + 10
          + extra_weights Catalog.the_extraCriteria) = 10)%Z.
Proof.
  exists (report_of new_ReadMeAnalyzer content).
  split; [apply analyze_ret|].
  split; [apply split_length|].
  cbn -[length_check section_weights extra_weights Catalog.the_sectionCriteria
        Catalog.the_extraCriteria formatting_check Nat.lt Nat.le].
  unfold length_check.
  repeat split; intros; repeat case_match; cbn; try done;
    repeat match goal with
           | H : (_ <? _) = true |- _ => apply Nat.ltb_lt in H
           | H : (_ <? _) = false |- _ => apply Nat.ltb_ge in H
           end; try lia.
Qed.

(** The three buckets at documents of 1, 10 and 201 lines. *)
Lemma length_metric_witness :
  (∃ r, (analyze new_ReadMeAnalyzer []).1 = JS.Ret r
     ∧ LengthInfo.score (AnalysisReport.length r) = 0%Z
     ∧ LengthInfo.suggestion (AnalysisReport.length r)
       = Some "README is too short. Add more details.")
  ∧ (∃ r, (analyze new_ReadMeAnalyzer (replicate 9 10%N)).1 = JS.Ret r
       ∧ LengthInfo.score (AnalysisReport.length r) = 10%Z
       ∧ LengthInfo.suggestion (AnalysisReport.length r) = None)
  ∧ (∃ r, (analyze new_ReadMeAnalyzer (replicate 200 10%N)).1 = JS.Ret r
       ∧ LengthInfo.score (AnalysisReport.length r) = 5%Z
       ∧ LengthInfo.suggestion (AnalysisReport.length r)
         = Some "README is very long. Consider splitting into sections or separate docs.").
Proof.
  split; [|split].
  - destruct (length_metric_buckets []) as (r & Hr & Hlines & Hlow & _).
    exists r. split; [exact Hr|]. apply Hlow. rewrite Hlines. vm_compute. lia.
  - destruct (length_metric_buckets (replicate 9 10%N))
      as (r & Hr & Hlines & _ & Hmid & _).
    exists r. split; [exact Hr|]. apply Hmid. rewrite Hlines. vm_compute. lia.
  - destruct (length_metric_buckets (replicate 200 10%N))
      as (r & Hr & Hlines & _ & _ & Hhigh & _).
    exists r. split; [exact Hr|]. apply Hhigh. rewrite Hlines. vm_compute. lia.
Defined.

(** C10. The reported line count is at least 1 for every document; the
    empty document is reported as 1 line, scores 0 on length and gets the
    too-short remediation. *)
Theorem at_least_one_line :
  (∀ content : list N,
     ∃ r, (analyze new_ReadMeAnalyzer content).1 = JS.Ret r
       ∧ 1 ≤ LengthInfo.lines (AnalysisReport.length r))
  ∧ ∃ r, (analyze new_ReadMeAnalyzer []).1 = JS.Ret r
      ∧ AnalysisReport.length r =
          {| LengthInfo.lines := 1; LengthInfo.score := 0;
             LengthInfo.suggestion := Some "README is too short. Add more details." |}
      ∧ "README is too short. Add more details." ∈ AnalysisReport.suggestions r.
Proof.
  split.
  - intros content. exists (report_of new_ReadMeAnalyzer content).
    split; [apply analyze_ret|].
    cbn -[JS.split]. rewrite split_length. lia.
  - exists (report_of new_ReadMeAnalyzer []).
    split; [apply analyze_ret|]. split; [reflexivity|].
    apply (bool_decide_unpack _). by vm_compute.
Qed.

(** *** Determinism *)

Lemma exec_not_global re s : JS.global re = false → (JS.exec re s).2 = re.
Proof.
  intros Hg. unfold JS.exec. rewrite Hg.
  repeat case_match; reflexivity.
Qed.

Lemma test_not_global re s : JS.global re = false → (JS.test re s).2 = re.
Proof.
  intros Hg. unfold JS.test.
  pose proof (exec_not_global re s Hg) as He.
  by destruct (JS.exec re s).
Qed.

(** Without a global pattern the section loop leaves the criteria as
    they were. *)
Lemma section_checks_snd content crits v :
  Forall (fun crit => JS.global (SectionCriterion.regex crit) = false) crits →
  (section_checks content crits v).2 = crits.
Proof.
  intros Hall. revert v. induction Hall as [|crit crits Hg _ IH]; intros v; [done|].
  cbn [section_checks]. unfold section_step.
  pose proof (test_not_global _ content Hg) as Ht.
  destruct (JS.test (SectionCriterion.regex crit) content) as [present re].
  cbn in Ht. subst re.
  match goal with |- context [section_checks content crits ?v1] =>
    specialize (IH v1); destruct (section_checks content crits v1) as [v2 crits1]
  end.
  cbn in IH |- *. subst crits1. by destruct crit.
Qed.

Lemma analyze_snd self content :
  Forall (fun crit => JS.global (SectionCriterion.regex crit) = false)
         (sectionCriteria self) →
  (analyze self content).2 = self.
Proof.
  intros Hall. unfold analyze.
  pose proof (section_checks_snd content (sectionCriteria self)
    {| totalScore := 0; maxScore := 0; sections := ∅; extras := ∅;
       suggestions := [] |} Hall) as Hs.
  destruct (section_checks content (sectionCriteria self) _) as [v1 crits].
  cbn in Hs. subst crits.
  destruct (length_check _), (formatting_check _ _). cbn. by destruct self.
Qed.

Lemma section_patterns_not_global :
  Forall (fun crit => JS.global (SectionCriterion.regex crit) = false)
         Catalog.the_sectionCriteria.
Proof. repeat constructor. Qed.

(** C8. Two calls of [analyze] on the same analyzer object with the same
    document text return the same report: the first call leaves the
    object as it found it. *)
Theorem analyze_is_repeatable (content : list N) :
  (analyze new_ReadMeAnalyzer content).2 = new_ReadMeAnalyzer
  ∧ (analyze (analyze new_ReadMeAnalyzer content).2 content).1
    = (analyze new_ReadMeAnalyzer content).1.
Proof.
  assert ((analyze new_ReadMeAnalyzer content).2 = new_ReadMeAnalyzer) as Hsame
    by apply analyze_snd, section_patterns_not_global.
  split; [done | by rewrite Hsame].
Qed.

(** A section pattern with the [g] flag would break this: its
    [lastIndex] survives the call. *)
Example global_pattern_is_not_repeatable :
  let first := analyze analyzer_with_global_pattern (JS.of_string "# a") in
  AnalysisReport.totalScore <$> (match first.1 with JS.Ret r => Some r | _ => None end)
    = Some 10%Z
  ∧ AnalysisReport.totalScore <$>
      (match (analyze first.2 (JS.of_string "# a")).1 with
       | JS.Ret r => Some r | _ => None end)
    = Some 0%Z.
Proof. split; vm_compute; reflexivity. Qed.

(** *** Checks that throw *)

Lemma extra_checks_app content crits1 crits2 v :
  extra_checks content (crits1 ++ crits2) v
  = JS.bind (extra_checks content crits1 v) (extra_checks content crits2).
Proof.
  revert v. induction crits1 as [|crit crits1 IH]; intros v; [done|].
  cbn [app extra_checks]. rewrite extra_step_ret. cbn [JS.bind]. apply IH.
Qed.

Lemma record_all_app es1 es2 m :
  record_all (es1 ++ es2) m = record_all es2 (record_all es1 m).
Proof. unfold record_all. by rewrite foldl_app. Qed.

Lemma extra_entry_thrown content crit e :
  ExtraCriterion.check crit content = JS.Throw e →
  extra_entry content crit = (ExtraCriterion.name crit, absent_entry crit).
Proof. intros Hc. unfold extra_entry, extra_present. by rewrite Hc. Qed.

(** *** The section loop has no guard *)

Lemma section_checks_tested_ret content crits v :
  section_checks_tested content (tested <$> crits) v
  = JS.Ret (section_checks content crits v).1.
Proof.
  revert v. induction crits as [|crit crits IH]; intros v; [done|].
  cbn [fmap list_fmap section_checks_tested section_checks].
  unfold section_step_tested, section_step. cbn [tested TestedCriterion.test JS.bind].
  destruct (JS.test (SectionCriterion.regex crit) content) as [present re].
  cbn [fst TestedCriterion.score TestedCriterion.name TestedCriterion.suggestion].
  rewrite IH.
  by destruct (section_checks content crits _) as [v2 crits1].
Qed.

(** On the criteria of an analyzer the generalised [analyze] is
    [analyze]. *)
Lemma analyze_tested_agrees self content :
  analyze_tested (tested <$> sectionCriteria self) (extraCriteria self) content
  = (analyze self content).1.
Proof.
  unfold analyze_tested, analyze. rewrite section_checks_tested_ret.
  destruct (section_checks content (sectionCriteria self) _) as [v1 crits].
  cbn [JS.bind fst].
  destruct (length_check _) as [lengthScore lengthSuggestion].
  by destruct (formatting_check _ _) as [formattingScore formattingSuggestion].
Qed.

Lemma section_checks_tested_throw content before crit after e v :
  Forall (fun c => ∃ b, TestedCriterion.test c content = JS.Ret b) before →
  TestedCriterion.test crit content = JS.Throw e →
  section_checks_tested content (before ++ crit :: after) v = JS.Throw e.
Proof.
  intros Hbefore Hthrow. revert v.
  induction Hbefore as [|c before [b Hb] _ IH]; intros v.
  - cbn. unfold section_step_tested. by rewrite Hthrow.
  - cbn [app section_checks_tested]. unfold section_step_tested at 1.
    rewrite Hb. cbn [JS.bind]. apply IH.
Qed.

Lemma analyze_tested_throw content before crit after extraCrits e :
  Forall (fun c => ∃ b, TestedCriterion.test c content = JS.Ret b) before →
  TestedCriterion.test crit content = JS.Throw e →
  analyze_tested (before ++ crit :: after) extraCrits content = JS.Throw e.
Proof.
  intros Hbefore Hthrow. unfold analyze_tested.
  by rewrite (section_checks_tested_throw _ _ _ _ e _ Hbefore Hthrow).
Qed.




(** *** Suggestions *)

Lemma flat_map_agree {A B} (f g : A → list B) (l : list A) :
  (∀ x, x ∈ l → f x = g x) → flat_map f l = flat_map g l.
Proof.
  induction l as [|x l IH]; intros Hfg; [done|].
  cbn. rewrite Hfg, IH; [done | | ]; intros; try apply Hfg; set_solver.
Qed.

Lemma due_sections content crits :
  NoDup (SectionCriterion.name <$> crits) →
  Forall (fun crit => SectionCriterion.suggestion crit ≠ "") crits →
  flat_map (fun crit => due_rule (record_all (section_entry content <$> crits) ∅)
                          (SectionCriterion.name crit)
                          (SectionCriterion.suggestion crit)) crits
  = section_missing content crits.
Proof.
  intros Hnd Hne. apply flat_map_agree. intros crit Hin.
  unfold due_rule.
  rewrite (record_all_lookup _ _ _ (section_entry content crit).2).
  - rewrite Forall_forall in Hne. specialize (Hne crit Hin).
    cbn. rewrite bool_decide_eq_false_2 by done.
    by destruct (section_present content crit).
  - by rewrite section_entry_names.
  - apply list_elem_of_fmap. by exists crit.
Qed.

Lemma due_extras content crits :
  NoDup (ExtraCriterion.name <$> crits) →
  flat_map (fun crit => due_rule (record_all (extra_entry content <$> crits) ∅)
                          (ExtraCriterion.name crit)
                          (ExtraCriterion.suggestion crit)) crits
  = extra_missing content crits.
Proof.
  intros Hnd. apply flat_map_agree. intros crit Hin.
  unfold due_rule.
  rewrite (record_all_lookup _ _ _ (extra_entry content crit).2).
  - cbn. unfold truthy. by destruct (extra_present content crit).
  - by rewrite extra_entry_names.
  - apply list_elem_of_fmap. by exists crit.
Qed.

Lemma push_if_length n l :
  push_if (length_check n).2 l
  = l ++ due_metric (length_check n).1 (length_check n).2.
Proof.
  unfold length_check. repeat case_match; cbn; by rewrite ?app_nil_r.
Qed.

Lemma push_if_formatting h b l :
  push_if (formatting_check h b).2 l
  = l ++ due_metric (formatting_check h b).1 (formatting_check h b).2.
Proof.
  unfold formatting_check. repeat case_match; cbn; by rewrite ?app_nil_r.
Qed.

Lemma report_suggestions self content :
  NoDup (SectionCriterion.name <$> sectionCriteria self) →
  NoDup (ExtraCriterion.name <$> extraCriteria self) →
  Forall (fun crit => SectionCriterion.suggestion crit ≠ "") (sectionCriteria self) →
  AnalysisReport.suggestions (report_of self content)
  = expected_suggestions self (report_of self content).
Proof.
  intros Hs Hx Hne. unfold expected_suggestions, report_of.
  cbn [AnalysisReport.suggestions AnalysisReport.sections AnalysisReport.extras
       AnalysisReport.length AnalysisReport.formatting LengthInfo.score
       LengthInfo.suggestion FormattingInfo.score FormattingInfo.suggestion].
  rewrite (due_sections content _ Hs Hne), (due_extras content _ Hx).
  rewrite push_if_formatting, push_if_length.
  cbn [app]. by rewrite <- !app_assoc.
Qed.

Lemma section_missing_unsatisfied content crits :
  section_missing content crits
  = SectionCriterion.suggestion <$> unsatisfied_sections content crits.
Proof.
  unfold section_missing, unsatisfied_sections.
  induction crits as [|crit crits IH]; [done|].
  cbn [flat_map]. rewrite filter_cons, IH.
  destruct (section_present content crit); by case_decide.
Qed.

Lemma extra_missing_unsatisfied content crits :
  Forall (fun crit => ExtraCriterion.suggestion crit ≠ "") crits →
  extra_missing content crits
  = ExtraCriterion.suggestion <$> unsatisfied_extras content crits.
Proof.
  unfold extra_missing, unsatisfied_extras.
  induction 1 as [|crit crits Hne _ IH]; [done|].
  cbn [flat_map]. rewrite filter_cons, IH.
  unfold truthy. rewrite bool_decide_eq_false_2 by done.
  destruct (extra_present content crit); by case_decide.
Qed.

(** C7. The suggestions of the report are exactly the remediations that
    the document calls for, each once and verbatim: those of the section
    rules whose test fails on the content, in catalog order, then the one
    of the length metric, then the one of the formatting metric, then
    those of the extra rules whose check fails on the content, in catalog
    order; a rule that is satisfied contributes nothing.  Every rule of
    both catalogs has its entry in the report, which records the result
    of its test, so the same list is read off the entries of the report. *)
Theorem suggestions_follow_entries (content : list N) :
  ∃ r, (analyze new_ReadMeAnalyzer content).1 = JS.Ret r
    ∧ (∀ crit, crit ∈ sectionCriteria new_ReadMeAnalyzer →
         AnalysisReport.sections r !! SectionCriterion.name crit
         = Some (outcome (section_present content crit)
                   (SectionCriterion.score crit) (SectionCriterion.suggestion crit)))
    ∧ (∀ crit, crit ∈ extraCriteria new_ReadMeAnalyzer →
         AnalysisReport.extras r !! ExtraCriterion.name crit
         = Some (outcome (extra_present content crit)
                   (ExtraCriterion.score crit) (ExtraCriterion.suggestion crit)))
    ∧ LengthInfo.score (AnalysisReport.length r)
      = (length_check (length (JS.split 10 content))).1
    ∧ LengthInfo.suggestion (AnalysisReport.length r)
      = (length_check (length (JS.split 10 content))).2
    ∧ FormattingInfo.score (AnalysisReport.formatting r)
      = (formatting_check (headingCount content) (codeBlockCount content)).1
    ∧ FormattingInfo.suggestion (AnalysisReport.formatting r)
      = (formatting_check (headingCount content) (codeBlockCount content)).2
    ∧ AnalysisReport.suggestions r
      = (SectionCriterion.suggestion
           <$> unsatisfied_sections content (sectionCriteria new_ReadMeAnalyzer))
        ++ due_metric (length_check (length (JS.split 10 content))).1
                      (length_check (length (JS.split 10 content))).2
        ++ due_metric
             (formatting_check (headingCount content) (codeBlockCount content)).1
             (formatting_check (headingCount content) (codeBlockCount content)).2
        ++ (ExtraCriterion.suggestion
              <$> unsatisfied_extras content (extraCriteria new_ReadMeAnalyzer))
    ∧ AnalysisReport.suggestions r = expected_suggestions new_ReadMeAnalyzer r.
Proof.
  exists (report_of new_ReadMeAnalyzer content).
  split; [apply analyze_ret|].
  split.
  { intros crit Hin. cbn [report_of AnalysisReport.sections].
    apply record_all_lookup.
    - rewrite section_entry_names. apply section_names_NoDup.
    - apply list_elem_of_fmap. by exists crit. }
  split.
  { intros crit Hin. cbn [report_of AnalysisReport.extras].
    apply record_all_lookup.
    - rewrite extra_entry_names. apply extra_names_NoDup.
    - apply list_elem_of_fmap. by exists crit. }
  do 4 (split; [reflexivity|]).
  split.
  - cbn [report_of AnalysisReport.suggestions].
    rewrite push_if_formatting, push_if_length, section_missing_unsatisfied.
    rewrite extra_missing_unsatisfied
      by (repeat constructor; cbn; discriminate).
    cbn [app]. by rewrite <- !app_assoc.
  - apply report_suggestions.
    + apply section_names_NoDup.
    + apply extra_names_NoDup.
    + apply section_suggestions_nonempty.
Qed.

(** *** The empty document *)

(** The empty document does not score 0: three extra rules hold of it. *)
Lemma empty_document_total_is_not_zero :
  ¬ ∃ r, (analyze new_ReadMeAnalyzer []).1 = JS.Ret r
      ∧ present_names (AnalysisReport.extras r) = ∅
      ∧ AnalysisReport.totalScore r = 0%Z.
Proof.
  intros (r & Hr & _ & Htotal).
  rewrite analyze_ret in Hr. injection Hr as <-.
  vm_compute in Htotal. discriminate.
Qed.

(** C3, amended. On the empty document [analyze] returns a complete
    report (8 section entries, 18 extra entries, both metrics); no
    section rule holds, neither metric scores, and exactly three extra
    rules hold, those that ask for the absence of something: Consistent
    Heading Levels, No Placeholder Text and No Broken Markdown, 2 points
    each; so [totalScore] is 6, against the fixed [maxScore] 121. *)
Theorem empty_document_report :
  ∃ r, (analyze new_ReadMeAnalyzer []).1 = JS.Ret r
    ∧ size (AnalysisReport.sections r) = 8
    ∧ size (AnalysisReport.extras r) = 18
    ∧ present_names (AnalysisReport.sections r) = ∅
    ∧ LengthInfo.score (AnalysisReport.length r) = 0%Z
    ∧ FormattingInfo.score (AnalysisReport.formatting r) = 0%Z
    ∧ present_names (AnalysisReport.extras r)
      = {["Consistent Heading Levels"; "No Placeholder Text"; "No Broken Markdown"]}
    ∧ AnalysisReport.totalScore r = 6%Z
    ∧ AnalysisReport.maxScore r = 121%Z.
Proof.
  exists (report_of new_ReadMeAnalyzer []).
  split; [apply analyze_ret|].
  repeat split; try (vm_compute; reflexivity);
    apply (bool_decide_unpack _); by vm_compute.
Qed.

(** *** The formatting metric *)

(** Fewer than one code block is fewer than two fence markers. *)
Lemma codeBlockCount_lt_1 content :
  Qlt_bool' (codeBlockCount content) 1 = bool_decide (fenceCount content < 2).
Proof.
  unfold Qlt_bool', codeBlockCount, Qle_bool. cbn [Qnum Qden].
  destruct (fenceCount content) as [|[|n]]; [reflexivity..|].
  rewrite bool_decide_eq_false_2 by lia.
  apply negb_false_iff, Z.leb_le. lia.
Qed.

(** The score and the remediation of the formatting metric, for every
    document. *)
Lemma formatting_metric_scores (content : list N) :
  ∃ r, (analyze new_ReadMeAnalyzer content).1 = JS.Ret r
    ∧ FormattingInfo.headings (AnalysisReport.formatting r) = headingCount content
    ∧ (FormattingInfo.score (AnalysisReport.formatting r),
       FormattingInfo.suggestion (AnalysisReport.formatting r))
      = if decide (headingCount content < 3)
        then (0%Z, Some "Add more headings to organize your README.")
        else if decide (fenceCount content < 2)
             then (0%Z, Some "Add code blocks for examples or usage instructions.")
             else (10%Z, None).
Proof.
  exists (report_of new_ReadMeAnalyzer content).
  split; [apply analyze_ret|]. split; [reflexivity|].
  cbn [report_of AnalysisReport.formatting FormattingInfo.score
       FormattingInfo.suggestion].
  unfold formatting_check. rewrite codeBlockCount_lt_1.
  destruct (Nat.ltb_spec (headingCount content) 3).
  - by rewrite decide_True by done.
  - rewrite decide_False by lia.
    case_bool_decide; [by rewrite decide_True | by rewrite decide_False].
Qed.

(** C6, at a document with three fence markers: the reported number of
    code blocks is three halves, not three halves rounded down. *)
Theorem code_blocks_of_open_fence :
  ∃ r, (analyze new_ReadMeAnalyzer doc_open_fence).1 = JS.Ret r
    ∧ fenceCount doc_open_fence = 3
    ∧ FormattingInfo.headings (AnalysisReport.formatting r) = 3
    ∧ FormattingInfo.codeBlocks (AnalysisReport.formatting r) = 3 # 2
    ∧ ¬ (FormattingInfo.codeBlocks (AnalysisReport.formatting r)
         == inject_Z (Z.of_nat (fenceCount doc_open_fence) / 2))%Q
    ∧ FormattingInfo.score (AnalysisReport.formatting r) = 10%Z.
Proof.
  exists (report_of new_ReadMeAnalyzer doc_open_fence).
  split; [apply analyze_ret|].
  repeat split; try (vm_compute; reflexivity).
  vm_compute. discriminate.
Qed.

(** *** Heading levels *)

Section MatcherFacts.
Import JS.

(** A greedy star over a one-character test takes a run of characters
    that pass the test and then continues. *)
Lemma star_loop_chars t m1 k fuel st res :
  (∀ st' k', m1 st' k' = step t st' k') →
  star_loop true m1 k fuel st = Some res →
  ∃ cs st', Forall (fun ch => t ch = true) cs
            ∧ rest st = cs ++ rest st'
            ∧ pos st' = pos st + length cs
            ∧ k st' = Some res.
Proof.
  intros Hm1. revert st. induction fuel as [|fuel IH]; intros st; [done|].
  cbn [star_loop]. rewrite Hm1.
  destruct (step t st _) as [res'|] eqn:Hstep.
  - intros [= ->]. apply step_inv in Hstep as (ch & cs & Hrest & Ht & Hk).
    cbn [advance pos] in Hk.
    destruct (Nat.eqb_spec (S (pos st)) (pos st)) as [|_]; [lia|].
    apply IH in Hk as (cs' & st' & Hall & Hrest' & Hpos & Hk).
    exists (ch :: cs'), st'. cbn in *. repeat split.
    + by constructor.
    + by rewrite Hrest, Hrest'.
    + lia.
    + done.
  - intros Hk. exists [], st. cbn. repeat split; [constructor | lia | done].
Qed.

(** A match of [^#+\s+] at [b] ending at [e]. *)
Lemma heading_mark_match b e :
  rmatch false true (source Catalog.heading_marks) b Some = Some e →
  ∃ n ws, 0 < n ∧ Forall (fun ch => is_space ch = true) ws
          ∧ rest b = replicate n 35%N ++ ws ++ rest e
          ∧ pos e = pos b + (n + length ws).
Proof.
  cbn [Catalog.heading_marks literal source Cat Plus Lit of_string fmap
       list_fmap Space rmatch].
  destruct (at_bol true b); [|done].
  intros H. apply step_inv in H as (c1 & cs1 & Hb & Hc1 & H).
  apply (star_loop_chars (char_matches false 35)) in H
    as (hs & st1 & Hhs & Hr1 & Hp1 & H); [|reflexivity].
  apply step_inv in H as (c2 & cs2 & Hst1 & Hc2 & H).
  apply (star_loop_chars (set_matches false false [CSpace])) in H
    as (ws & st2 & Hws & Hr2 & Hp2 & H); [|reflexivity].
  injection H as <-.
  assert (∀ ch, char_matches false 35 ch = true → ch = 35%N) as Hhash.
  { intros ch Hch. unfold char_matches in Hch. by apply N.eqb_eq in Hch. }
  assert (∀ ch, set_matches false false [CSpace] ch = true → is_space ch = true)
    as Hspace.
  { intros ch. unfold set_matches, item_matches. cbn.
    rewrite orb_false_r. done. }
  cbn [advance pos rest] in *.
  assert (hs = replicate (length hs) 35%N) as Hrun.
  { clear -Hhs Hhash. induction Hhs as [|x hs Hx _ IH]; [done|].
    cbn. by rewrite (Hhash _ Hx), <- IH. }
  exists (S (length hs)), (c2 :: ws). repeat split.
  - lia.
  - constructor; [by apply Hspace|].
    eapply Forall_impl; [exact Hws | exact Hspace].
  - rewrite Hb, (Hhash _ Hc1), Hr1, Hst1, Hr2. cbn [replicate app].
    by rewrite <- Hrun.
  - cbn [length]. lia.
Qed.

Lemma within_advance s ch cs st :
  within s st → rest st = ch :: cs → within s (advance ch cs st).
Proof.
  unfold within. cbn. intros Hw Hrest. rewrite Hrest in Hw.
  generalize dependent s. generalize (pos st). clear.
  induction n as [|n IH]; intros [|x s] Hd; cbn in *; try done.
  - by injection Hd as _ ->.
  - by apply IH.
Qed.

Lemma state_at_within s i st st' :
  within s st → state_at i st = Some st' → within s st'.
Proof.
  revert st. induction i as [|i IH]; intros st Hw; cbn.
  - by intros [= <-].
  - destruct (rest st) as [|ch cs] eqn:Hrest; [done|].
    apply IH. by apply within_advance.
Qed.

Lemma search_sound i m r s st b e :
  within s st →
  search i m r st (rest st) = Some (b, e) →
  within s b ∧ rmatch i m r b Some = Some e.
Proof.
  remember (rest st) as cs eqn:Hcs. revert st Hcs.
  induction cs as [|ch cs IH]; intros st Hcs Hw; cbn [search].
  - destruct (rmatch i m r st Some) eqn:Hm; [|done].
    by intros [= <- <-].
  - destruct (rmatch i m r st Some) eqn:Hm.
    + by intros [= <- <-].
    + apply IH; [done|]. by apply within_advance.
Qed.

Lemma substring_within s b e x :
  within s b → rest b = x ++ rest e → pos e = pos b + length x →
  substring s (pos b) (pos e) = x.
Proof.
  unfold within, substring. intros Hw Hrest Hpos.
  rewrite <- Hw, Hrest, Hpos.
  replace (pos b + length x - pos b) with (length x) by lia.
  apply take_app_length.
Qed.

(** Every match that [exec] finds for the heading pattern is a mark. *)
Lemma exec_heading_mark re s m re' :
  source re = source Catalog.heading_marks →
  ignoreCase re = false → multiline re = true →
  exec re s = (Some m, re') →
  is_mark (matched m)
  ∧ source re' = source re ∧ ignoreCase re' = false ∧ multiline re' = true.
Proof.
  intros Hsrc Hi Hm. unfold exec. rewrite Hsrc, Hi, Hm.
  destruct (state_at _ _) as [st|] eqn:Hst; [|done].
  apply state_at_within with (s := s) in Hst; [|done].
  destruct (search _ _ _ st (rest st)) as [[b e]|] eqn:Hsearch; [|done].
  intros [= <- <-].
  apply (search_sound _ _ _ s) in Hsearch as [Hb Hmatch]; [|done].
  apply heading_mark_match in Hmatch as (n & ws & Hn & Hws & Hrest & Hpos).
  split.
  - exists n, ws. repeat split; [done..|].
    cbn [make_result matched].
    apply substring_within; [done | by rewrite <- app_assoc |].
    rewrite length_app, length_replicate. lia.
  - by destruct (global re).
Qed.

Lemma match_loop_heading_marks fuel re s :
  source re = source Catalog.heading_marks →
  ignoreCase re = false → multiline re = true →
  Forall is_mark (match_loop fuel re s).
Proof.
  revert re. induction fuel as [|fuel IH]; intros re Hsrc Hi Hm; [constructor|].
  cbn [match_loop].
  destruct (exec re s) as [[m|] re'] eqn:Hexec; [|constructor].
  apply exec_heading_mark in Hexec as (Hmark & Hsrc' & Hi' & Hm'); [|done..].
  constructor; [done|].
  apply IH; case_bool_decide;
    cbn [set_lastIndex source ignoreCase multiline]; congruence.
Qed.

Lemma heading_marks_are_marks content : Forall is_mark (heading_marks_of content).
Proof.
  unfold heading_marks_of, match_all.
  pose proof (match_loop_heading_marks (S (length content))
                (set_lastIndex 0 Catalog.heading_marks) content
                eq_refl eq_refl eq_refl) as Hall.
  destruct (match_loop _ _ _); [constructor | done].
Qed.

Lemma trim_start_spaces ws l :
  Forall (fun ch => is_space ch = true) ws → trim_start (ws ++ l) = trim_start l.
Proof. induction 1 as [|ch ws Hch _ IH]; cbn; [done | by rewrite Hch]. Qed.

(** Trimming a mark leaves its [#] marks: its length is the level. *)
Lemma trim_mark h : is_mark h → length (trim h) = hashes h.
Proof.
  intros (n & ws & Hn & Hws & ->).
  destruct n as [|n]; [lia|].
  unfold trim, trim_end, hashes. cbn [replicate app trim_start is_space].
  replace (is_space 35) with false by reflexivity.
  change (35%N :: replicate n 35%N ++ ws) with (replicate (S n) 35%N ++ ws).
  rewrite reverse_app, reverse_replicate, trim_start_spaces
    by by apply Forall_reverse.
  cbn [replicate trim_start]. replace (is_space 35) with false by reflexivity.
  rewrite length_reverse.
  rewrite filter_app, length_app.
  change (35%N :: replicate n 35%N) with (replicate (S n) 35%N).
  assert (filter (fun ch => ch = 35%N) ws = []) as ->.
  { clear -Hws. induction Hws as [|ch ws Hch _ IH]; [done|].
    rewrite filter_cons, decide_False; [done|]. by intros ->. }
  assert (filter (fun ch => ch = 35%N) (replicate (S n) 35%N) = replicate (S n) 35%N)
    as ->.
  { generalize (S n). intros k. induction k as [|k IH]; [done|].
    cbn [replicate]. by rewrite filter_cons, decide_True, IH. }
  cbn. rewrite !length_replicate. lia.
Qed.

Lemma heading_levels_are_hashes content :
  Catalog.heading_levels content = hashes <$> heading_marks_of content.
Proof.
  unfold Catalog.heading_levels. fold (heading_marks_of content).
  pose proof (heading_marks_are_marks content) as Hall.
  induction Hall as [|h hs Hh _ IH]; [done|].
  cbn. by rewrite trim_mark, IH.
Qed.
End MatcherFacts.

(** Each extra rule of the catalog has its own entry in the report. *)
Lemma report_extra_entry content i crit :
  Catalog.the_extraCriteria !! i = Some crit →
  AnalysisReport.extras (report_of new_ReadMeAnalyzer content)
    !! ExtraCriterion.name crit
  = Some (extra_entry content crit).2.
Proof.
  intros Hi. cbn [report_of AnalysisReport.extras].
  apply record_all_lookup.
  - rewrite extra_entry_names. apply extra_names_NoDup.
  - apply list_elem_of_fmap. exists crit. split; [done|].
    by apply list_elem_of_lookup_2 in Hi.
Qed.

Lemma consistent_levels_check content :
  let levels := hashes <$> heading_marks_of content in
  Catalog.check_ConsistentHeadingLevels content = true
  ↔ length levels ≤ 1
    ∨ ∀ h, h ∈ levels →
        h = default 0 (head levels) ∨ h = default 0 (head levels) + 1.
Proof.
  intros levels. unfold Catalog.check_ConsistentHeadingLevels.
  rewrite heading_levels_are_hashes. fold levels.
  destruct (Nat.ltb_spec 1 (length levels)) as [Hlong|Hshort].
  - rewrite forallb_forall. split.
    + intros Hall. right. intros h Hh.
      apply list_elem_of_In, Hall, orb_true_iff in Hh.
      destruct Hh as [Hh|Hh]; apply Nat.eqb_eq in Hh; auto.
    + intros [Hle|Hall]; [lia|]. intros h Hh.
      apply list_elem_of_In, Hall in Hh. apply orb_true_iff.
      destruct Hh as [->| ->]; [left | right]; apply Nat.eqb_refl.
  - split; [intros _; left; lia | done].
Qed.

(** C9. The rule Consistent Heading Levels is recorded as present
    exactly when the document has at most one heading, or every heading
    has the level of the first heading or that level plus one, the level
    of a heading being the number of its [#] marks; with headings of
    levels 1, 2, 2 and 4 the rule is recorded as absent. *)
Theorem consistent_heading_levels_rule :
  (∀ content : list N,
     let levels := hashes <$> heading_marks_of content in
     ∃ r, (analyze new_ReadMeAnalyzer content).1 = JS.Ret r
       ∧ (Outcome.present <$> AnalysisReport.extras r !! "Consistent Heading Levels"
            = Some true
          ↔ length levels ≤ 1
            ∨ ∀ h, h ∈ levels →
                h = default 0 (head levels) ∨ h = default 0 (head levels) + 1))
  ∧ hashes <$> heading_marks_of doc_levels_1224 = [1; 2; 2; 4]
  ∧ ∃ r, (analyze new_ReadMeAnalyzer doc_levels_1224).1 = JS.Ret r
      ∧ Outcome.present <$> AnalysisReport.extras r !! "Consistent Heading Levels"
        = Some false.
Proof.
  assert (∀ content,
    Outcome.present <$> AnalysisReport.extras (report_of new_ReadMeAnalyzer content)
                          !! "Consistent Heading Levels"
    = Some (Catalog.check_ConsistentHeadingLevels content)) as Hentry.
  { intros content.
    pose proof (report_extra_entry content 10
                  (ExtraCriterion.mk "Consistent Heading Levels"
                     (Catalog.returns Catalog.check_ConsistentHeadingLevels) 2
                     "Use consistent heading levels for structure.") eq_refl)
      as Hlookup.
    cbn [ExtraCriterion.name] in Hlookup. by rewrite Hlookup. }
  split; [|split].
  - intros content levels. exists (report_of new_ReadMeAnalyzer content).
    split; [apply analyze_ret|]. rewrite Hentry.
    etrans; [|apply (consistent_levels_check content)].
    split; congruence.
  - vm_compute. reflexivity.
  - exists (report_of new_ReadMeAnalyzer doc_levels_1224).
    split; [apply analyze_ret|]. rewrite Hentry. vm_compute. reflexivity.
Qed.

(** *** Further properties of the report *)

Lemma extra_suggestions_nonempty :
  Forall (fun crit => ExtraCriterion.suggestion crit ≠ "") Catalog.the_extraCriteria.
Proof. repeat constructor; cbn; discriminate. Qed.

Lemma section_weights_positive :
  Forall (fun crit => (0 < SectionCriterion.score crit)%Z) Catalog.the_sectionCriteria.
Proof. repeat constructor; cbn; lia. Qed.

Lemma extra_weights_positive :
  Forall (fun crit => (0 < ExtraCriterion.score crit)%Z) Catalog.the_extraCriteria.
Proof. repeat constructor; cbn; lia. Qed.

(** With positive weights, the section rules award all their points
    exactly when the section loop pushes no suggestion. *)
Lemma sections_full content crits :
  Forall (fun crit => (0 < SectionCriterion.score crit)%Z) crits →
  (awarded (section_entry content <$> crits) ≤ section_weights crits)%Z
  ∧ (awarded (section_entry content <$> crits) = section_weights crits
     ↔ section_missing content crits = []).
Proof.
  unfold awarded, section_weights, section_missing, sum_Z.
  induction 1 as [|crit crits Hc _ [IHle IH]]; cbn; [done|].
  destruct (section_present content crit); cbn.
  - split; [lia|]. rewrite <- IH. split; lia.
  - split; [lia|]. split; [lia | done].
Qed.

Lemma extras_full content crits :
  Forall (fun crit => (0 < ExtraCriterion.score crit)%Z) crits →
  Forall (fun crit => ExtraCriterion.suggestion crit ≠ "") crits →
  (awarded (extra_entry content <$> crits) ≤ extra_weights crits)%Z
  ∧ (awarded (extra_entry content <$> crits) = extra_weights crits
     ↔ extra_missing content crits = []).
Proof.
  unfold awarded, extra_weights, extra_missing, sum_Z.
  induction 1 as [|crit crits Hc _ IH]; intros Hne; cbn; [done|].
  apply Forall_cons in Hne as [Hne1 Hne].
  destruct (IH Hne) as [IHle IHeq].
  unfold truthy. rewrite bool_decide_eq_false_2 by done.
  destruct (extra_present content crit); cbn.
  - split; [lia|]. rewrite <- IHeq. split; lia.
  - split; [lia|]. split; [lia | done].
Qed.

Lemma length_check_full n l :
  ((length_check n).1 ≤ 10)%Z
  ∧ (push_if (length_check n).2 l = [] ↔ (length_check n).1 = 10%Z ∧ l = []).
Proof.
  unfold length_check. repeat case_match; cbn; (split; [lia|]);
    split; try (intros [? ?]; done); try done.
  all: intros Hnil; by apply app_eq_nil in Hnil as [_ ?].
Qed.

Lemma formatting_check_full h b l :
  ((formatting_check h b).1 ≤ 10)%Z
  ∧ (push_if (formatting_check h b).2 l = []
     ↔ (formatting_check h b).1 = 10%Z ∧ l = []).
Proof.
  unfold formatting_check. repeat case_match; cbn; (split; [lia|]);
    split; try (intros [? ?]; done); try done.
  all: intros Hnil; by apply app_eq_nil in Hnil as [_ ?].
Qed.

(** X1. A report carries no suggestion exactly when its score is the
    maximum: every shortfall, and only a shortfall, is explained. *)
Theorem no_suggestion_iff_full_score (content : list N) :
  ∃ r, (analyze new_ReadMeAnalyzer content).1 = JS.Ret r
    ∧ (AnalysisReport.suggestions r = []
       ↔ AnalysisReport.totalScore r = AnalysisReport.maxScore r).
Proof.
  exists (report_of new_ReadMeAnalyzer content).
  split; [apply analyze_ret|].
  destruct (sections_full content _ section_weights_positive) as [Hsle Hs].
  destruct (extras_full content _ extra_weights_positive extra_suggestions_nonempty)
    as [Hxle Hx].
  pose proof (length_check_full (length (JS.split 10 content))) as Hl.
  pose proof (formatting_check_full (headingCount content) (codeBlockCount content))
    as Hf.
  cbn [report_of AnalysisReport.suggestions AnalysisReport.totalScore
       AnalysisReport.maxScore new_ReadMeAnalyzer sectionCriteria extraCriteria
       app].
  set (ss := section_missing content Catalog.the_sectionCriteria) in *.
  set (xs := extra_missing content Catalog.the_extraCriteria) in *.
  set (len := length_check _) in *. set (fmt := formatting_check _ _) in *.
  destruct (Hl ss) as [Hlle Hleq]. clear Hl.
  destruct (Hf (push_if len.2 ss)) as [Hfle Hfeq]. clear Hf.
  split.
  - intros Hnil. apply app_eq_nil in Hnil as [Hpush Hxs].
    apply Hfeq in Hpush as [Hf10 Hpush]. apply Hleq in Hpush as [Hl10 Hss].
    apply Hs in Hss. apply Hx in Hxs. lia.
  - intros Htotal.
    assert (awarded (section_entry content <$> Catalog.the_sectionCriteria)
            = section_weights Catalog.the_sectionCriteria) as Ha by lia.
    assert (awarded (extra_entry content <$> Catalog.the_extraCriteria)
            = extra_weights Catalog.the_extraCriteria) as Hb by lia.
    assert (len.1 = 10%Z) as Hl10 by lia.
    assert (fmt.1 = 10%Z) as Hf10 by lia.
    apply Hs in Ha. apply Hx in Hb. rewrite Hb, app_nil_r.
    apply Hfeq. split; [done|]. apply Hleq. by split.
Qed.

Lemma section_missing_sublist content crits :
  section_missing content crits `sublist_of` SectionCriterion.suggestion <$> crits
  ∧ length (section_missing content crits) ≤ length crits.
Proof.
  unfold section_missing.
  induction crits as [|crit crits [IH IHn]]; cbn; [split; [constructor | done]|].
  destruct (section_present content crit); cbn.
  - split; [by apply sublist_cons | lia].
  - split; [by apply sublist_skip | lia].
Qed.

Lemma extra_missing_sublist content crits :
  extra_missing content crits `sublist_of` ExtraCriterion.suggestion <$> crits
  ∧ length (extra_missing content crits) ≤ length crits.
Proof.
  unfold extra_missing.
  induction crits as [|crit crits [IH IHn]]; cbn; [split; [constructor | done]|].
  destruct (negb _ && _); cbn.
  - split; [by apply sublist_skip | lia].
  - split; [by apply sublist_cons | lia].
Qed.

Lemma push_if_length_sublist n l :
  push_if (length_check n).2 l `sublist_of`
    l ++ ["README is too short. Add more details.";
          "README is very long. Consider splitting into sections or separate docs."]
  ∧ length (push_if (length_check n).2 l) ≤ S (length l).
Proof.
  unfold length_check. repeat case_match; cbn;
    repeat match goal with
           | |- context [truthy ?s] => change (truthy s) with true
           end;
    (split; [|rewrite ?length_app; cbn; lia]).
  - apply sublist_app; [done|]. by apply sublist_skip, sublist_nil_l.
  - apply sublist_app; [done|]. by apply sublist_cons, sublist_skip.
  - by apply sublist_inserts_r.
Qed.

Lemma push_if_formatting_sublist h b l :
  push_if (formatting_check h b).2 l `sublist_of`
    l ++ ["Add more headings to organize your README.";
          "Add code blocks for examples or usage instructions."]
  ∧ length (push_if (formatting_check h b).2 l) ≤ S (length l).
Proof.
  unfold formatting_check. repeat case_match; cbn;
    repeat match goal with
           | |- context [truthy ?s] => change (truthy s) with true
           end;
    (split; [|rewrite ?length_app; cbn; lia]).
  - apply sublist_app; [done|]. by apply sublist_skip, sublist_nil_l.
  - apply sublist_app; [done|]. by apply sublist_cons, sublist_skip.
  - by apply sublist_inserts_r.
Qed.

Lemma all_remediations_NoDup : NoDup (all_remediations new_ReadMeAnalyzer).
Proof. by apply (bool_decide_unpack _); vm_compute. Qed.

(** X2. The suggestions of a report are drawn, in order, from the fixed
    list of remediations; none is repeated, and there are at most 28 of
    them: one per rule and one per metric. *)
Theorem suggestions_are_distinct (content : list N) :
  ∃ r, (analyze new_ReadMeAnalyzer content).1 = JS.Ret r
    ∧ AnalysisReport.suggestions r `sublist_of` all_remediations new_ReadMeAnalyzer
    ∧ NoDup (AnalysisReport.suggestions r)
    ∧ length (AnalysisReport.suggestions r) ≤ 28.
Proof.
  exists (report_of new_ReadMeAnalyzer content).
  split; [apply analyze_ret|].
  cbn [report_of AnalysisReport.suggestions new_ReadMeAnalyzer sectionCriteria
       extraCriteria app].
  destruct (section_missing_sublist content Catalog.the_sectionCriteria) as [Hs Hsn].
  destruct (extra_missing_sublist content Catalog.the_extraCriteria) as [Hx Hxn].
  set (ss := section_missing content Catalog.the_sectionCriteria) in *.
  set (xs := extra_missing content Catalog.the_extraCriteria) in *.
  destruct (push_if_length_sublist (length (JS.split 10 content)) ss) as [Hl Hln].
  set (ls := push_if (length_check _).2 ss) in *.
  destruct (push_if_formatting_sublist (headingCount content)
              (codeBlockCount content) ls) as [Hf Hfn].
  set (fs := push_if (formatting_check _ _).2 ls) in *.
  assert (fs ++ xs `sublist_of` all_remediations new_ReadMeAnalyzer) as Hsub.
  { unfold all_remediations. cbn [new_ReadMeAnalyzer sectionCriteria extraCriteria].
    rewrite !app_assoc. apply sublist_app; [|done].
    etrans; [exact Hf|]. apply sublist_app; [|done].
    etrans; [exact Hl|]. by apply sublist_app. }
  split; [done|]. split.
  - eapply sublist_NoDup; [apply all_remediations_NoDup | done].
  - rewrite length_app. change (length Catalog.the_sectionCriteria) with 8 in Hsn.
    change (length Catalog.the_extraCriteria) with 18 in Hxn. lia.
Qed.

(** *** Entries *)

Lemma record_all_lookup_Some es m (k : string) o :
  record_all es m !! k = Some o → (k, o) ∈ es ∨ m !! k = Some o.
Proof.
  induction es as [|e es IH] using rev_ind; [by right|].
  rewrite record_all_snoc. destruct (decide (e.1 = k)) as [<-|Hne].
  - rewrite lookup_insert_eq. intros [= <-]. left.
    apply elem_of_app. right. destruct e. apply list_elem_of_here.
  - rewrite lookup_insert_ne by done. intros H.
    apply IH in H as [Hin|Hm]; [left | by right].
    apply elem_of_app. by left.
Qed.

Lemma outcome_ok present w s :
  (0 < w)%Z → s ≠ "" → entry_ok (outcome present w s).
Proof.
  intros Hw Hs. unfold entry_ok, outcome. destruct present; cbn; [done|].
  split; [done|]. by exists s.
Qed.

(** X3. Every entry of [sections] and of [extras] is either present,
    with a positive score and no suggestion, or absent, with score 0 and
    a suggestion that is not empty. *)
Theorem entries_are_well_formed (content : list N) :
  ∃ r, (analyze new_ReadMeAnalyzer content).1 = JS.Ret r
    ∧ map_Forall (fun _ o => entry_ok o) (AnalysisReport.sections r)
    ∧ map_Forall (fun _ o => entry_ok o) (AnalysisReport.extras r).
Proof.
  exists (report_of new_ReadMeAnalyzer content).
  split; [apply analyze_ret|].
  cbn [report_of AnalysisReport.sections AnalysisReport.extras
       new_ReadMeAnalyzer sectionCriteria extraCriteria].
  split; intros name o Hlookup;
    apply record_all_lookup_Some in Hlookup as [Hin|Hempty];
    try (by rewrite lookup_empty in Hempty);
    apply list_elem_of_fmap in Hin as (crit & [= _ ->] & Hcrit).
  - apply outcome_ok.
    + pose proof section_weights_positive as Hw.
      rewrite Forall_forall in Hw. by apply Hw.
    + pose proof section_suggestions_nonempty as Hs.
      rewrite Forall_forall in Hs. by apply Hs.
  - apply outcome_ok.
    + pose proof extra_weights_positive as Hw.
      rewrite Forall_forall in Hw. by apply Hw.
    + pose proof extra_suggestions_nonempty as Hs.
      rewrite Forall_forall in Hs. by apply Hs.
Qed.

(** *** How the rules depend on each other *)

Section MatcherOrder.
Import JS.
Variables (i m : bool).

(** A matcher that succeeds still succeeds with a continuation that
    accepts at least as much. *)
Lemma star_loop_mono g m1 k1 k2 fuel st :
  (∀ st1 k k', (∀ st2, is_Some (k st2) → is_Some (k' st2)) →
               is_Some (m1 st1 k) → is_Some (m1 st1 k')) →
  (∀ st1, is_Some (k1 st1) → is_Some (k2 st1)) →
  is_Some (star_loop g m1 k1 fuel st) → is_Some (star_loop g m1 k2 fuel st).
Proof.
  intros Hm1 Hk. revert st. induction fuel as [|fuel IH]; intros st; [done|].
  rewrite !star_loop_unfold.
  assert (is_Some (m1 st (fun st1 =>
            if pos st1 =? pos st then None else star_loop g m1 k1 fuel st1)) →
          is_Some (m1 st (fun st1 =>
            if pos st1 =? pos st then None else star_loop g m1 k2 fuel st1)))
    as Hiter.
  { apply Hm1. intros st1. destruct (pos st1 =? pos st); [done | apply IH]. }
  destruct g.
  - destruct (m1 st _) as [res1|] eqn:H1.
    + intros _. destruct Hiter as [res2 Hres2]; [by eexists|].
      by rewrite Hres2.
    + intros Hk1. apply Hk in Hk1.
      match goal with
      | |- is_Some (match ?x with _ => _ end) => destruct x
      end; [by eexists | exact Hk1].
  - destruct (k1 st) as [res1|] eqn:H1.
    + intros _. destruct (Hk st) as [res2 Hres2]; [by rewrite H1|].
      by rewrite Hres2.
    + intros Hit. apply Hiter in Hit. destruct (k2 st); [by eexists | exact Hit].
Qed.

Lemma rmatch_mono r st k1 k2 :
  (∀ st1, is_Some (k1 st1) → is_Some (k2 st1)) →
  is_Some (rmatch i m r st k1) → is_Some (rmatch i m r st k2).
Proof.
  revert st k1 k2.
  induction r as [|p|negated items| | | |r1 IH1 r2 IH2|r1 IH1 r2 IH2|g r1 IH1
                  |n r1 IH1|r1 IH1]; intros st k1 k2 Hk; cbn [rmatch].
  - apply Hk.
  - unfold step. destruct (rest st); [done|]. case_match; [apply Hk | done].
  - unfold step. destruct (rest st); [done|]. case_match; [apply Hk | done].
  - unfold step. destruct (rest st); [done|]. case_match; [apply Hk | done].
  - destruct (at_bol m st); [apply Hk | done].
  - destruct (at_eol m st); [apply Hk | done].
  - apply IH1. intros st1. by apply IH2.
  - destruct (rmatch i m r1 st k1) as [res1|] eqn:H1.
    + intros _. destruct (IH1 st k1 k2 Hk) as [res2 Hres2]; [by rewrite H1|].
      by rewrite Hres2.
    + intros H2. apply (IH2 st k1 k2 Hk) in H2.
      destruct (rmatch i m r1 st k2); [by eexists | exact H2].
  - apply star_loop_mono; [|done]. intros st1 k k' Hkk. by apply IH1.
  - apply IH1. intros st1. apply Hk.
  - destruct (rmatch i m r1 st Some); [apply Hk | done].
Qed.

(** Where a sequence matches, its head matches. *)
Lemma rmatch_seq_head r1 r2 st :
  is_Some (rmatch i m (Seq r1 r2) st Some) → is_Some (rmatch i m r1 st Some).
Proof. cbn [rmatch]. by apply rmatch_mono. Qed.

(** As [rmatch_progress], keeping track of the subject. *)
Lemma rmatch_within s r st k res :
  within s st → rmatch i m r st k = Some res →
  ∃ st1, within s st1 ∧ pos st ≤ pos st1 ∧ k st1 = Some res.
Proof.
  revert st k res.
  induction r as [|p|negated items| | | |r1 IH1 r2 IH2|r1 IH1 r2 IH2|g r1 IH1
                  |n r1 IH1|r1 IH1]; intros st k res Hw; cbn [rmatch].
  - intros Hk. by exists st.
  - intros H. apply step_inv in H as (ch & cs & Hr & _ & Hk).
    exists (advance ch cs st). split; [by apply within_advance|].
    cbn. split; [lia|done].
  - intros H. apply step_inv in H as (ch & cs & Hr & _ & Hk).
    exists (advance ch cs st). split; [by apply within_advance|].
    cbn. split; [lia|done].
  - intros H. apply step_inv in H as (ch & cs & Hr & _ & Hk).
    exists (advance ch cs st). split; [by apply within_advance|].
    cbn. split; [lia|done].
  - destruct (at_bol m st); [|done]. intros Hk. by exists st.
  - destruct (at_eol m st); [|done]. intros Hk. by exists st.
  - intros H. apply IH1 in H as (st1 & Hw1 & Hp1 & H); [|done].
    apply IH2 in H as (st2 & Hw2 & Hp2 & H); [|done].
    exists st2. repeat split; [done | lia | done].
  - destruct (rmatch i m r1 st k) as [res1|] eqn:H1.
    + intros [= <-]. by apply IH1 in H1.
    + intros H2. by apply IH2 in H2.
  - generalize (S (length (rest st))). intros fuel. revert st res Hw.
    induction fuel as [|fuel IHf]; intros st res Hw; [done|].
    rewrite star_loop_unfold.
    assert (∀ res1,
      rmatch i m r1 st (fun st1 =>
        if pos st1 =? pos st then None else star_loop g (rmatch i m r1) k fuel st1)
      = Some res1 →
      ∃ st1, within s st1 ∧ pos st ≤ pos st1 ∧ k st1 = Some res1) as Hiter.
    { intros res1 H. apply IH1 in H as (st1 & Hw1 & Hp1 & H); [|done].
      destruct (pos st1 =? pos st); [done|].
      apply IHf in H as (st2 & Hw2 & Hp2 & H); [|done].
      exists st2. repeat split; [done | lia | done]. }
    destruct g.
    + destruct (rmatch i m r1 st _) as [res1|] eqn:H1.
      * intros [= <-]. by apply Hiter.
      * intros Hk. by exists st.
    + destruct (k st) as [res1|] eqn:Hk.
      * intros [= <-]. by exists st.
      * apply Hiter.
  - intros H. apply IH1 in H as (st1 & Hw1 & Hp1 & H); [|done].
    exists (set_cap n (pos st, pos st1) st1). by repeat split.
  - destruct (rmatch i m r1 st Some) as [st1|]; [|done].
    intros Hk. exists (with_caps (caps st1) st). by repeat split.
Qed.

(** [search] returns a position it has reached, and it finds a match
    whenever one starts at a position it can reach. *)
Lemma search_reach r st b e :
  search i m r st (rest st) = Some (b, e) → ∃ n, state_at n st = Some b.
Proof.
  remember (rest st) as cs eqn:Hcs. revert st Hcs.
  induction cs as [|ch cs IH]; intros st Hcs; cbn [search];
    destruct (rmatch i m r st Some) as [res|]; try done;
    try (intros [= <- <-]; by exists 0).
  intros H. apply (IH (advance ch cs st) eq_refl) in H as [n Hn].
  exists (S n). cbn [state_at]. by rewrite <- Hcs.
Qed.

Lemma search_complete r st n b :
  state_at n st = Some b → is_Some (rmatch i m r b Some) →
  is_Some (search i m r st (rest st)).
Proof.
  revert st. induction n as [|n IH]; intros st Hat Hb.
  - injection Hat as ->. destruct Hb as [e He].
    destruct (rest b); cbn [search]; by rewrite He.
  - cbn [state_at] in Hat. destruct (rest st) as [|ch cs] eqn:Hr; [done|].
    cbn [search]. destruct (rmatch i m r st Some); [done|].
    by apply (IH (advance ch cs st)).
Qed.
End MatcherOrder.

(** A test without the [g] flag searches from the start. *)
Lemma tests_search re s :
  JS.global re = false →
  Catalog.tests re s = true
  ↔ is_Some (JS.search (JS.ignoreCase re) (JS.multiline re) (JS.source re)
               (JS.start_state s) s).
Proof.
  intros Hg. unfold Catalog.tests, JS.test, JS.exec. rewrite Hg.
  cbn [JS.state_at JS.start_state JS.rest].
  destruct (JS.search _ _ _ _ s) as [[b e]|]; cbn [fst].
  - split; [by eexists|]. intros _. by apply bool_decide_eq_true_2.
  - split; [|by intros []]. intros H. apply bool_decide_eq_true_1 in H.
    by destruct H.
Qed.

Lemma match_first_search re s mr :
  JS.global re = false → JS.match_first re s = Some mr →
  ∃ b e, JS.search (JS.ignoreCase re) (JS.multiline re) (JS.source re)
           (JS.start_state s) s = Some (b, e).
Proof.
  intros Hg. unfold JS.match_first, JS.exec. rewrite Hg.
  cbn [JS.state_at JS.start_state JS.rest].
  destruct (JS.search _ _ _ _ s) as [[b e]|]; [|done]. intros _. by exists b, e.
Qed.

Lemma newline_matches i ch : JS.char_matches i 10 ch = true → ch = 10%N.
Proof.
  unfold JS.char_matches. destruct i.
  - change (JS.canonicalize 10) with 10%N. unfold JS.canonicalize, JS.in_range.
    destruct ((97 <=? ch)%N && (ch <=? 122)%N) eqn:Hrange.
    + apply andb_true_iff in Hrange as [Hlo Hhi].
      apply N.leb_le in Hlo, Hhi. intros H. apply N.eqb_eq in H. lia.
    + intros H. by apply N.eqb_eq in H.
  - intros H. by apply N.eqb_eq in H.
Qed.

(** The end of a section is only found in front of a newline. *)
Lemma section_end_newline i m st k res :
  JS.rmatch i m Catalog.section_end st k = Some res →
  ∃ cs, JS.rest st = 10%N :: cs.
Proof.
  unfold Catalog.section_end, Catalog.NL. cbn [JS.rmatch JS.Cat JS.Lit].
  intros H.
  repeat match type of H with
         | context [JS.step ?t st ?k1] =>
             let E := fresh "E" in
             destruct (JS.step t st k1) eqn:E;
             [apply step_inv in E as (ch & cs & Hr & Hch & _);
              apply newline_matches in Hch as ->; by exists cs|]
         end.
  done.
Qed.

(** Where a pattern of the form heading, body, end of section matches,
    the heading alone is found, and the content has a newline. *)
Lemma scoped_match i m H B content mr :
  JS.match_first (JS.literal (JS.Cat [H; B; Catalog.section_end]) false i m) content
    = Some mr →
  Catalog.tests (JS.literal H false i m) content = true ∧ 10%N ∈ content.
Proof.
  intros Hfirst. apply match_first_search in Hfirst as (b & e & Hsearch); [|done].
  cbn [JS.literal JS.ignoreCase JS.multiline JS.source JS.Cat] in Hsearch.
  pose proof (search_reach _ _ _ (JS.start_state content) b e Hsearch) as [n Hn].
  apply (search_sound _ _ _ content (JS.start_state content)) in Hsearch
    as [Hb Hmatch]; [|done].
  split.
  - apply tests_search; [done|].
    apply (search_complete _ _ _ (JS.start_state content) n b Hn).
    apply (rmatch_seq_head _ _ _ (JS.Seq B Catalog.section_end)).
    exists e. exact Hmatch.
  - cbn [JS.rmatch] in Hmatch.
    apply (rmatch_within _ _ content) in Hmatch as (st1 & Hw1 & _ & Hmatch); [|done].
    apply (rmatch_within _ _ content) in Hmatch as (st2 & Hw2 & _ & Hmatch); [|done].
    apply section_end_newline in Hmatch as [cs Hcs].
    apply (subseteq_drop (JS.pos st2)). rewrite <- Hw2, Hcs. apply list_elem_of_here.
Qed.

Lemma report_section_entry content i crit :
  Catalog.the_sectionCriteria !! i = Some crit →
  AnalysisReport.sections (report_of new_ReadMeAnalyzer content)
    !! SectionCriterion.name crit
  = Some (section_entry content crit).2.
Proof.
  intros Hi. cbn [report_of AnalysisReport.sections].
  apply record_all_lookup.
  - rewrite section_entry_names. apply section_names_NoDup.
  - apply list_elem_of_fmap. exists crit. split; [done|].
    by apply list_elem_of_lookup_2 in Hi.
Qed.

(** The entries of the report say what the tests and checks returned. *)
Lemma says_present_section content i crit :
  Catalog.the_sectionCriteria !! i = Some crit →
  says_present (AnalysisReport.sections (report_of new_ReadMeAnalyzer content))
    (SectionCriterion.name crit)
  ↔ Catalog.tests (SectionCriterion.regex crit) content = true.
Proof.
  intros Hi. unfold says_present. rewrite (report_section_entry content i crit Hi).
  cbn. unfold section_present, Catalog.tests. split; congruence.
Qed.

Lemma says_present_extra content i crit f :
  Catalog.the_extraCriteria !! i = Some crit →
  ExtraCriterion.check crit = Catalog.returns f →
  says_present (AnalysisReport.extras (report_of new_ReadMeAnalyzer content))
    (ExtraCriterion.name crit)
  ↔ f content = true.
Proof.
  intros Hi Hf. unfold says_present. rewrite (report_extra_entry content i crit Hi).
  cbn. unfold extra_present. rewrite Hf. cbn. split; congruence.
Qed.

Lemma body_has_section title re content :
  Catalog.body_has title re content = true →
  Catalog.tests (JS.literal (Catalog.heading (JS.Lit title)) false true false) content
    = true
  ∧ 10%N ∈ content.
Proof.
  unfold Catalog.body_has, Catalog.section_body.
  destruct (JS.match_first _ content) as [mr|] eqn:Hfirst; [|done].
  intros _. by apply scoped_match in Hfirst.
Qed.

(** X4. An extra rule that looks inside a section is only satisfied when
    the section rule of the same heading is, and only in a document that
    has a newline: the text of a section ends in front of a newline. *)
Theorem scoped_rule_needs_its_section (content : list N) :
  ∃ r, (analyze new_ReadMeAnalyzer content).1 = JS.Ret r
    ∧ ∀ extra section, (extra, section) ∈ scoped_rules →
        says_present (AnalysisReport.extras r) extra →
        says_present (AnalysisReport.sections r) section ∧ 10%N ∈ content.
Proof.
  exists (report_of new_ReadMeAnalyzer content).
  split; [apply analyze_ret|].
  intros extra section Hin Hextra.
  unfold scoped_rules in Hin.
  repeat (apply elem_of_cons in Hin as [[= -> ->]|Hin]);
    [..|by apply elem_of_nil in Hin].
  - apply (says_present_extra content 1 _ Catalog.check_DescriptionLength eq_refl eq_refl)
      in Hextra.
    rewrite (says_present_section content 1 _ eq_refl).
    unfold Catalog.check_DescriptionLength in Hextra.
    destruct (JS.match_first _ content) as [mr|] eqn:Hfirst; [|done].
    by apply scoped_match in Hfirst.
  - apply (says_present_extra content 13 _ Catalog.check_InstallationHasCode
             eq_refl eq_refl) in Hextra.
    rewrite (says_present_section content 2 _ eq_refl).
    by apply body_has_section in Hextra.
  - apply (says_present_extra content 14 _ Catalog.check_UsageHasCode
             eq_refl eq_refl) in Hextra.
    rewrite (says_present_section content 3 _ eq_refl).
    by apply body_has_section in Hextra.
  - apply (says_present_extra content 15 _ Catalog.check_ExampleHasCode
             eq_refl eq_refl) in Hextra.
    rewrite (says_present_section content 4 _ eq_refl).
    by apply body_has_section in Hextra.
  - apply (says_present_extra content 16 _ Catalog.check_ContributingHasGuidelines
             eq_refl eq_refl) in Hextra.
    rewrite (says_present_section content 5 _ eq_refl).
    by apply body_has_section in Hextra.
  - apply (says_present_extra content 17 _ Catalog.check_LicenseHasName
             eq_refl eq_refl) in Hextra.
    rewrite (says_present_section content 6 _ eq_refl).
    by apply body_has_section in Hextra.
Qed.

(** *** Marks that count as broken Markdown *)

Lemma state_at_app cs tl st :
  JS.rest st = cs ++ tl →
  ∃ st1, JS.state_at (length cs) st = Some st1
         ∧ JS.rest st1 = tl ∧ JS.pos st1 = JS.pos st + length cs.
Proof.
  revert st. induction cs as [|ch cs IH]; intros st Hrest.
  - exists st. cbn. split; [done|]. split; [done | lia].
  - cbn [length JS.state_at]. rewrite Hrest. cbn [app].
    destruct (IH (JS.advance ch (cs ++ tl) st) eq_refl) as (st1 & Hat & Hr & Hp).
    exists st1. split; [done|]. split; [done|]. cbn in Hp. lia.
Qed.

(** A star succeeds wherever what follows it does. *)
Lemma star_loop_fallback g m1 k fuel st :
  is_Some (k st) → is_Some (JS.star_loop g m1 k (S fuel) st).
Proof.
  intros [res Hres]. rewrite star_loop_unfold, Hres.
  destruct g; [|by eexists]. by case_match.
Qed.

(** A [#] followed by anything but a space or a newline is found by the
    pattern of the rule No Broken Markdown, wherever it stands. *)
Lemma hash_then_mark_is_broken before ch after :
  ch ≠ 32%N → ch ≠ 10%N →
  Catalog.check_NoBrokenMarkdown (before ++ 35%N :: ch :: after) = false.
Proof.
  intros Hsp Hnl. unfold Catalog.check_NoBrokenMarkdown.
  apply negb_false_iff, tests_search; [done|].
  cbn [JS.literal JS.ignoreCase JS.multiline JS.source].
  destruct (state_at_app before (35%N :: ch :: after)
              (JS.start_state (before ++ 35%N :: ch :: after)) eq_refl)
    as (b & Hat & Hrest & _).
  apply (search_complete _ _ _ (JS.start_state _) _ b Hat).
  cbn [JS.rmatch JS.Cat JS.Plus JS.Lit JS.of_string fmap list_fmap].
  unfold JS.step at 1. rewrite Hrest.
  replace (JS.char_matches false (JS.of_ascii "#") 35) with true by reflexivity.
  match goal with
  | |- is_Some (match ?x with _ => _ end) =>
      assert (is_Some x) as [res ->]; [|by eexists]
  end.
  apply star_loop_fallback.
  unfold JS.step. cbn [JS.advance JS.rest].
  assert (JS.set_matches false true [JS.CChar (Catalog.c " "); JS.CChar 10] ch = true)
    as ->; [|by eexists].
  unfold JS.set_matches, JS.item_matches, Catalog.c.
  cbn [existsb JS.item_matches1].
  change (JS.of_ascii " ") with 32%N.
  assert ((32 =? ch)%N = false) as -> by (apply N.eqb_neq; congruence).
  assert ((10 =? ch)%N = false) as -> by (apply N.eqb_neq; congruence).
  reflexivity.
Qed.

Lemma awarded_extras_without content crits crit :
  Forall (fun c => (0 ≤ ExtraCriterion.score c)%Z) crits →
  crit ∈ crits → extra_present content crit = false →
  (awarded (extra_entry content <$> crits)
   ≤ extra_weights crits - ExtraCriterion.score crit)%Z.
Proof.
  unfold awarded, extra_weights, sum_Z.
  induction 1 as [|c crits Hc Hall IH]; intros Hin Habsent;
    [by apply elem_of_nil in Hin|].
  pose proof (awarded_extras_bounds content crits Hall) as Hb.
  unfold awarded, extra_weights, sum_Z in Hb.
  cbn. apply elem_of_cons in Hin as [<-|Hin].
  - rewrite Habsent. cbn. lia.
  - specialize (IH Hin Habsent). destruct (extra_present content c); cbn; lia.
Qed.

(** X5. A document in which a [#] is followed by anything but a space
    or a newline, as in every heading of level two or more, does not
    satisfy No Broken Markdown, and so scores at most 119. *)
Theorem hash_then_mark_loses_points (content before after : list N) (ch : N) :
  content = before ++ 35%N :: ch :: after → ch ≠ 32%N → ch ≠ 10%N →
  ∃ r, (analyze new_ReadMeAnalyzer content).1 = JS.Ret r
    ∧ Outcome.present <$> AnalysisReport.extras r !! "No Broken Markdown"
      = Some false
    ∧ (AnalysisReport.totalScore r ≤ 119)%Z.
Proof.
  intros -> Hsp Hnl. set (content := before ++ 35%N :: ch :: after).
  exists (report_of new_ReadMeAnalyzer content).
  split; [apply analyze_ret|].
  pose proof (hash_then_mark_is_broken before ch after Hsp Hnl) as Hbroken.
  fold content in Hbroken.
  set (crit := ExtraCriterion.mk "No Broken Markdown"
                 (Catalog.returns Catalog.check_NoBrokenMarkdown) 2
                 "Fix broken Markdown syntax (headings, links, etc).").
  assert (extra_present content crit = false) as Habsent
    by (unfold extra_present; cbn; by rewrite Hbroken).
  split.
  - pose proof (report_extra_entry content 12 crit eq_refl) as Hlookup.
    cbn [ExtraCriterion.name crit] in Hlookup. rewrite Hlookup.
    unfold extra_entry, outcome. cbn [snd fmap option_fmap option_map
                                      Outcome.present].
    by rewrite Habsent.
  - pose proof (awarded_extras_without content Catalog.the_extraCriteria crit
                  extra_weights_nonneg
                  (list_elem_of_lookup_2 Catalog.the_extraCriteria 12 crit eq_refl)
                  Habsent) as Hx.
    pose proof (awarded_sections_bounds content _ section_weights_nonneg) as Hs.
    pose proof (length_check_bounds (length (JS.split 10 content))) as Hl.
    pose proof (formatting_check_bounds (headingCount content)
                  (codeBlockCount content)) as Hf.
    destruct weights_total as [Hws Hwx]. rewrite Hws in Hs. rewrite Hwx in Hx.
    cbn [report_of AnalysisReport.totalScore new_ReadMeAnalyzer sectionCriteria
         extraCriteria].
    cbn [ExtraCriterion.score crit] in Hx. lia.
Qed.

Lemma hash_then_mark_witness :
  ∃ r, (analyze new_ReadMeAnalyzer (JS.of_string "## Usage")).1 = JS.Ret r
    ∧ Outcome.present <$> AnalysisReport.extras r !! "No Broken Markdown"
      = Some false
    ∧ (AnalysisReport.totalScore r ≤ 119)%Z.
Proof.
  apply (hash_then_mark_loses_points (JS.of_string "## Usage") []
           (JS.of_string " Usage") 35 eq_refl); [vm_compute | vm_compute];
    discriminate.
Defined.

(** *** Rules implied by other rules *)

Section MatcherShape.
Import JS.
Variables (i m : bool).

(** What a successful match has consumed. *)
Lemma rmatch_consumed P r st k res :
  consumes_only i P r → rmatch i m r st k = Some res →
  ∃ cs st1, Forall (fun ch => P ch = true) cs
            ∧ rest st = cs ++ rest st1 ∧ k st1 = Some res.
Proof.
  revert st k res.
  induction r as [|p|negated items| | | |r1 IH1 r2 IH2|r1 IH1 r2 IH2|g r1 IH1
                  |n r1 IH1|r1 IH1]; intros st k res Hr; cbn [rmatch].
  - intros Hk. by exists [], st.
  - intros H. apply step_inv in H as (ch & cs & Hrest & Hch & Hk).
    exists [ch], (advance ch cs st). split; [|done]. constructor; [by apply Hr | done].
  - intros H. apply step_inv in H as (ch & cs & Hrest & Hch & Hk).
    exists [ch], (advance ch cs st). split; [|done]. constructor; [by apply Hr | done].
  - intros H. apply step_inv in H as (ch & cs & Hrest & Hch & Hk).
    exists [ch], (advance ch cs st). split; [|done].
    constructor; [|done]. apply Hr. by apply negb_true_iff.
  - destruct (at_bol m st); [|done]. intros Hk. by exists [], st.
  - destruct (at_eol m st); [|done]. intros Hk. by exists [], st.
  - destruct Hr as [Hr1 Hr2]. intros H.
    apply IH1 in H as (cs1 & st1 & Hcs1 & Hrest1 & H); [|done].
    apply IH2 in H as (cs2 & st2 & Hcs2 & Hrest2 & H); [|done].
    exists (cs1 ++ cs2), st2. split; [by apply Forall_app|].
    split; [|done]. by rewrite Hrest1, Hrest2, app_assoc.
  - destruct Hr as [Hr1 Hr2].
    destruct (rmatch i m r1 st k) as [res1|] eqn:H1.
    + intros [= <-]. by apply IH1 in H1.
    + intros H2. by apply IH2 in H2.
  - cbn in Hr. generalize (S (length (rest st))). intros fuel. revert st res.
    induction fuel as [|fuel IHf]; intros st res; [done|].
    rewrite star_loop_unfold.
    assert (∀ res1,
      rmatch i m r1 st (fun st1 =>
        if pos st1 =? pos st then None else star_loop g (rmatch i m r1) k fuel st1)
      = Some res1 →
      ∃ cs st1, Forall (fun ch => P ch = true) cs
                ∧ rest st = cs ++ rest st1 ∧ k st1 = Some res1) as Hiter.
    { intros res1 H. apply IH1 in H as (cs1 & st1 & Hcs1 & Hrest1 & H); [|done].
      destruct (pos st1 =? pos st); [done|].
      apply IHf in H as (cs2 & st2 & Hcs2 & Hrest2 & H).
      exists (cs1 ++ cs2), st2. split; [by apply Forall_app|].
      split; [|done]. by rewrite Hrest1, Hrest2, app_assoc. }
    destruct g.
    + destruct (rmatch i m r1 st _) as [res1|] eqn:H1.
      * intros [= <-]. by apply Hiter.
      * intros Hk. by exists [], st.
    + destruct (k st) as [res1|] eqn:Hk.
      * intros [= <-]. by exists [], st.
      * apply Hiter.
  - cbn in Hr. intros H. apply IH1 in H as (cs1 & st1 & Hcs1 & Hrest1 & H); [|done].
    by exists cs1, (set_cap n (pos st, pos st1) st1).
  - destruct (rmatch i m r1 st Some) as [st1|]; [|done].
    intros Hk. by exists [], (with_caps (caps st1) st).
Qed.

(** A greedy star over a one-character test gets across any run of
    code units that pass the test, if what follows it matches there. *)
Lemma star_loop_run t m1 k cs tl fuel st :
  (∀ st1 k1, m1 st1 k1 = step t st1 k1) →
  Forall (fun ch => t ch = true) cs →
  rest st = cs ++ tl → length cs < fuel →
  (∀ st1, rest st1 = tl → is_Some (k st1)) →
  is_Some (star_loop true m1 k fuel st).
Proof.
  intros Hm1 Hcs. revert fuel st.
  induction Hcs as [|ch cs Hch _ IH]; intros fuel st Hrest Hfuel Hk;
    (destruct fuel as [|fuel]; [cbn in Hfuel; lia|]).
  - apply star_loop_fallback. by apply Hk.
  - rewrite star_loop_unfold, Hm1. unfold step. rewrite Hrest. cbn [app].
    rewrite Hch. cbn [advance pos].
    destruct (Nat.eqb_spec (S (pos st)) (pos st)) as [|_]; [lia|].
    destruct (IH fuel (advance ch (cs ++ tl) st) eq_refl) as [res Hres].
    + cbn in Hfuel. lia.
    + done.
    + rewrite Hres. by eexists.
Qed.
End MatcherShape.

(** A character that is not a letter is matched by itself only, with or
    without the [i] flag. *)
Lemma punctuation_matches i p ch :
  is_letter p = false → JS.char_matches i p ch = true → ch = p.
Proof.
  unfold is_letter, JS.char_matches, JS.canonicalize, JS.in_range.
  intros Hp. apply orb_false_iff in Hp as [Hup Hlo].
  rewrite Hlo. destruct i; [|intros H; by apply N.eqb_eq in H].
  destruct ((97 <=? ch)%N && (ch <=? 122)%N) eqn:Hch.
  - intros H. apply N.eqb_eq in H.
    apply andb_true_iff in Hch as [H1 H2]. apply N.leb_le in H1, H2.
    apply andb_false_iff in Hup as [Hup|Hup]; apply N.leb_gt in Hup; lia.
  - intros H. by apply N.eqb_eq in H.
Qed.

(** A character that is not a line terminator never matches one. *)
Lemma not_terminator_matches i p ch :
  JS.is_line_terminator p = false → JS.char_matches i p ch = true →
  not_line_terminator ch = true.
Proof.
  unfold not_line_terminator, JS.char_matches, JS.canonicalize, JS.in_range,
    JS.is_line_terminator.
  intros Hp H. apply negb_true_iff.
  repeat (apply orb_false_iff in Hp as [Hp ?]).
  repeat match goal with
         | H : (_ =? _)%N = false |- _ => apply N.eqb_neq in H
         end.
  destruct i.
  - destruct ((97 <=? p)%N && (p <=? 122)%N) eqn:Hpr;
      destruct ((97 <=? ch)%N && (ch <=? 122)%N) eqn:Hcr;
      apply N.eqb_eq in H;
      repeat match goal with
             | H : _ && _ = true |- _ => apply andb_true_iff in H as [? ?]
             | H : (_ <=? _)%N = true |- _ => apply N.leb_le in H
             end;
      repeat (apply orb_false_iff; split); apply N.eqb_neq; lia.
  - apply N.eqb_eq in H. subst ch.
    repeat (apply orb_false_iff; split); by apply N.eqb_neq.
Qed.

(** From one test to another: it is enough that wherever the first
    pattern matches, the second matches at the same place. *)
Lemma tests_transfer reA reB content :
  JS.global reA = false → JS.global reB = false →
  (∀ b e,
     JS.rmatch (JS.ignoreCase reA) (JS.multiline reA) (JS.source reA) b Some = Some e →
     is_Some (JS.rmatch (JS.ignoreCase reB) (JS.multiline reB) (JS.source reB) b Some)) →
  Catalog.tests reA content = true → Catalog.tests reB content = true.
Proof.
  intros HgA HgB Hstep HA.
  apply tests_search in HA as [[b e] Hsearch]; [|done]. apply tests_search; [done|].
  pose proof (search_reach _ _ _ (JS.start_state content) b e Hsearch) as [n Hn].
  apply (search_sound _ _ _ content (JS.start_state content)) in Hsearch
    as [_ Hmatch]; [|done].
  apply (search_complete _ _ _ (JS.start_state content) n b Hn).
  by apply (Hstep b e).
Qed.

Lemma step_ok t st k ch cs :
  JS.rest st = ch :: cs → t ch = true → JS.step t st k = k (JS.advance ch cs st).
Proof. intros Hrest Ht. unfold JS.step. by rewrite Hrest, Ht. Qed.

(** The badge pattern matches at [![x](y)] when [x] and [y] stay on one
    line. *)
Lemma badge_matches b x y tl :
  Forall (fun ch => not_line_terminator ch = true) x →
  Forall (fun ch => not_line_terminator ch = true) y →
  JS.rest b = 33%N :: 91%N :: x ++ 93%N :: 40%N :: y ++ 41%N :: tl →
  is_Some (JS.rmatch false false Catalog.badge b Some).
Proof.
  intros Hx Hy Hrest. unfold Catalog.badge.
  cbn [JS.rmatch JS.Cat JS.Lit JS.of_string fmap list_fmap].
  rewrite (step_ok _ _ _ _ _ Hrest eq_refl).
  erewrite step_ok; [|cbn [JS.advance JS.rest]; reflexivity | reflexivity].
  apply (star_loop_run not_line_terminator _ _ x (93%N :: 40%N :: y ++ 41%N :: tl));
    [done | done | done | cbn; rewrite length_app; lia |].
  intros s3 Hs3.
  rewrite (step_ok _ _ _ _ _ Hs3 eq_refl).
  erewrite step_ok; [|cbn [JS.advance JS.rest]; reflexivity | reflexivity].
  apply (star_loop_run not_line_terminator _ _ y (41%N :: tl));
    [done | done | done | cbn; rewrite length_app; lia |].
  intros s6 Hs6. rewrite (step_ok _ _ _ _ _ Hs6 eq_refl). by eexists.
Qed.

Lemma rmatch_Seq i m r1 r2 st k :
  JS.rmatch i m (JS.Seq r1 r2) st k
  = JS.rmatch i m r1 st (fun st1 => JS.rmatch i m r2 st1 k).
Proof. reflexivity. Qed.

Lemma rmatch_Chr i m p st k :
  JS.rmatch i m (JS.Chr p) st k = JS.step (JS.char_matches i p) st k.
Proof. reflexivity. Qed.

Lemma image_is_badge content :
  Catalog.check_Images content = true →
  Catalog.tests (JS.literal Catalog.badge false false false) content = true.
Proof.
  unfold Catalog.check_Images. apply tests_transfer; [done..|].
  intros b e.
  cbn [JS.literal JS.ignoreCase JS.multiline JS.source JS.Cat].
  change (JS.Lit "![") with (JS.Seq (JS.Chr 33) (JS.Chr 91)).
  change (JS.Lit "](") with (JS.Seq (JS.Chr 93) (JS.Chr 40)).
  change (JS.Lit ")") with (JS.Chr 41).
  intros H. rewrite ?rmatch_Seq, ?rmatch_Chr in H.
  apply step_inv in H as (c1 & t1 & Hb & Hc1 & H).
  apply punctuation_matches in Hc1 as ->; [|done].
  rewrite ?rmatch_Seq, ?rmatch_Chr in H.
  apply step_inv in H as (c2 & t2 & Ht1 & Hc2 & H).
  apply punctuation_matches in Hc2 as ->; [|done].
  cbn [JS.advance JS.rest] in Ht1. subst t1.
  rewrite ?rmatch_Seq in H.
  apply (rmatch_consumed _ _ not_line_terminator) in H
    as (x1 & s3 & Hx1 & Hr3 & H);
    [|cbn; intros ch Hch; unfold not_line_terminator; by rewrite Hch].
  cbn [JS.advance JS.rest] in Hr3.
  rewrite ?rmatch_Seq in H.
  apply (rmatch_consumed _ _ not_line_terminator) in H
    as (x2 & s4 & Hx2 & Hr4 & H);
    [|cbn; repeat split; intros ch Hch;
      by eapply (not_terminator_matches true); [|exact Hch]].
  rewrite ?rmatch_Seq in H.
  apply (rmatch_consumed _ _ not_line_terminator) in H
    as (x3 & s5 & Hx3 & Hr5 & H);
    [|cbn; intros ch Hch; unfold not_line_terminator; by rewrite Hch].
  rewrite ?rmatch_Seq, ?rmatch_Chr in H.
  apply step_inv in H as (c6 & t6 & Hs5 & Hc6 & H).
  apply punctuation_matches in Hc6 as ->; [|done].
  rewrite ?rmatch_Seq, ?rmatch_Chr in H.
  apply step_inv in H as (c7 & t7 & Ht6 & Hc7 & H).
  apply punctuation_matches in Hc7 as ->; [|done].
  cbn [JS.advance JS.rest] in Ht6. subst t6.
  rewrite ?rmatch_Seq in H.
  apply (rmatch_consumed _ _ not_line_terminator) in H
    as (y & s8 & Hy & Hr8 & H);
    [|cbn; intros ch Hch; unfold not_line_terminator; by rewrite Hch].
  cbn [JS.advance JS.rest] in Hr8.
  rewrite ?rmatch_Chr in H.
  apply step_inv in H as (c9 & t9 & Hs8 & Hc9 & _).
  apply punctuation_matches in Hc9 as ->; [|done].
  apply (badge_matches b (x1 ++ x2 ++ x3) y t9).
  - by repeat apply Forall_app_2.
  - done.
  - rewrite Hb, Hr3, Hr4, Hr5, Hs5, Hr8, Hs8. by rewrite <- !app_assoc.
Qed.

Lemma multiple_badges_is_badge content :
  Catalog.check_MultipleBadges content = true →
  Catalog.tests (JS.literal Catalog.badge false false false) content = true.
Proof.
  unfold Catalog.check_MultipleBadges, JS.match_all. intros H.
  apply tests_search; [done|].
  cbn [JS.literal JS.ignoreCase JS.multiline JS.source].
  cbn [JS.match_loop] in H.
  unfold JS.exec in H.
  cbn [JS.set_lastIndex JS.literal JS.global JS.lastIndex JS.ignoreCase
       JS.multiline JS.source JS.state_at JS.start_state JS.rest] in H.
  destruct (JS.search false false Catalog.badge _ content) as [[b e]|];
    [by eexists | done].
Qed.

Lemma capital_not_terminator ch :
  JS.set_matches false false [JS.CRange (Catalog.c "A") (Catalog.c "Z")] ch = true →
  JS.is_line_terminator ch = false.
Proof.
  unfold JS.set_matches, JS.item_matches, Catalog.c. cbn [existsb JS.item_matches1].
  change (JS.of_ascii "A") with 65%N. change (JS.of_ascii "Z") with 90%N.
  unfold JS.in_range, JS.is_line_terminator. rewrite orb_false_r. cbn [xorb].
  intros H. apply andb_true_iff in H as [H1 H2]. apply N.leb_le in H1, H2.
  repeat (apply orb_false_iff; split); apply N.eqb_neq; lia.
Qed.

Lemma proper_title_is_title content :
  Catalog.check_ProperTitleFormat content = true →
  Catalog.tests
    (JS.literal (JS.Cat [JS.Bol; JS.Lit "#"; JS.Space; JS.Plus true JS.Dot])
       false false true) content = true.
Proof.
  unfold Catalog.check_ProperTitleFormat. apply tests_transfer; [done..|].
  intros b e.
  cbn [JS.literal JS.ignoreCase JS.multiline JS.source JS.Cat JS.Plus].
  change (JS.Lit "# ") with (JS.Seq (JS.Chr 35) (JS.Chr 32)).
  change (JS.Lit "#") with (JS.Chr 35). unfold JS.Space.
  cbn [JS.rmatch]. destruct (JS.at_bol true b); [|done]. intros H.
  apply step_inv in H as (c1 & t1 & Hb & Hc1 & H).
  apply punctuation_matches in Hc1 as ->; [|done].
  apply step_inv in H as (c2 & t2 & Ht1 & Hc2 & H).
  apply punctuation_matches in Hc2 as ->; [|done].
  apply step_inv in H as (c3 & t3 & Ht2 & Hc3 & _).
  apply capital_not_terminator in Hc3.
  rewrite (step_ok _ _ _ _ _ Hb eq_refl), (step_ok _ _ _ _ _ Ht1 eq_refl).
  cbn [JS.Plus JS.rmatch].
  rewrite (step_ok _ _ _ _ _ Ht2); [|by rewrite Hc3].
  apply star_loop_fallback. by eexists.
Qed.

(** X6. Three extra rules cannot hold without a section rule: a properly
    formatted title is a title, and several badges, or an image, make the
    Badges rule hold. *)
Theorem extra_rule_implies_section_rule (content : list N) :
  ∃ r, (analyze new_ReadMeAnalyzer content).1 = JS.Ret r
    ∧ ∀ extra section, (extra, section) ∈ implied_rules →
        says_present (AnalysisReport.extras r) extra →
        says_present (AnalysisReport.sections r) section.
Proof.
  exists (report_of new_ReadMeAnalyzer content).
  split; [apply analyze_ret|].
  intros extra section Hin Hextra. unfold implied_rules in Hin.
  repeat (apply elem_of_cons in Hin as [[= -> ->]|Hin]);
    [..|by apply elem_of_nil in Hin].
  - apply (says_present_extra content 0 _ Catalog.check_ProperTitleFormat
             eq_refl eq_refl) in Hextra.
    rewrite (says_present_section content 0 _ eq_refl).
    by apply proper_title_is_title.
  - apply (says_present_extra content 3 _ Catalog.check_MultipleBadges
             eq_refl eq_refl) in Hextra.
    rewrite (says_present_section content 7 _ eq_refl).
    by apply multiple_badges_is_badge.
  - apply (says_present_extra content 4 _ Catalog.check_Images
             eq_refl eq_refl) in Hextra.
    rewrite (says_present_section content 7 _ eq_refl).
    by apply image_is_badge.
Qed.

(** *** The case of letters *)

Lemma in_range_spec lo hi x :
  (JS.in_range lo hi x = true ∧ (lo ≤ x ≤ hi)%N)
  ∨ (JS.in_range lo hi x = false ∧ (x < lo ∨ hi < x)%N).
Proof.
  unfold JS.in_range.
  destruct (N.leb_spec lo x), (N.leb_spec x hi); cbn; [left | right..];
    split; (done || lia).
Qed.

Lemma canonicalize_spec x :
  ((97 ≤ x ≤ 122)%N ∧ JS.canonicalize x = (x - 32)%N)
  ∨ ((x < 97 ∨ 122 < x)%N ∧ JS.canonicalize x = x).
Proof.
  unfold JS.canonicalize.
  destruct (in_range_spec 97 122 x) as [[-> ?]|[-> ?]]; [by left | by right].
Qed.

Lemma to_lower_spec x :
  ((65 ≤ x ≤ 90)%N ∧ JS.to_lower x = (x + 32)%N)
  ∨ ((x < 65 ∨ 90 < x)%N ∧ JS.to_lower x = x).
Proof.
  unfold JS.to_lower.
  destruct (in_range_spec 65 90 x) as [[-> ?]|[-> ?]]; [by left | by right].
Qed.

Lemma is_letter_spec x :
  (is_letter x = true ∧ ((65 ≤ x ≤ 90) ∨ (97 ≤ x ≤ 122))%N)
  ∨ (is_letter x = false ∧ (x < 65 ∨ 90 < x < 97 ∨ 122 < x)%N).
Proof.
  unfold is_letter.
  destruct (in_range_spec 65 90 x) as [[-> ?]|[-> ?]],
    (in_range_spec 97 122 x) as [[-> ?]|[-> ?]]; cbn;
    [left | left | left | right]; split; (done || lia).
Qed.

Lemma letter_not_space x : is_letter x = true → JS.is_space x = false.
Proof.
  intros Hx. destruct (is_letter_spec x) as [[_ Hr]|[Hn _]]; [|congruence].
  unfold JS.is_space.
  destruct (in_range_spec 9 13 x) as [[_ ?]|[-> _]]; [lia|].
  destruct (in_range_spec 8192 8202 x) as [[_ ?]|[-> _]]; [lia|].
  repeat match goal with
         | |- context [(x =? ?b)%N] =>
             destruct (N.eqb_spec x b) as [?|_]; [lia|]
         end.
  reflexivity.
Qed.

Lemma letter_not_digit x : is_letter x = true → JS.is_digit x = false.
Proof.
  intros Hx. destruct (is_letter_spec x) as [[_ Hr]|[Hn _]]; [|congruence].
  unfold JS.is_digit. destruct (in_range_spec 48 57 x) as [[_ ?]|[-> _]]; [lia|done].
Qed.

Section CaseChange.
Import JS.
Variable f : N → N.
Hypothesis Hf : case_change f.

Lemma case_change_letter ch :
  (f ch = canonicalize ch ∨ f ch = to_lower ch)
  ∧ (ch = canonicalize ch ∨ ch = to_lower ch)
  ∧ to_lower (f ch) = to_lower ch
  ∧ (is_letter ch = false → f ch = ch)
  ∧ is_letter (f ch) = is_letter ch.
Proof.
  pose proof (Hf ch) as Hcan.
  destruct (canonicalize_spec (f ch)) as [[? Hc1]|[? Hc1]],
    (canonicalize_spec ch) as [[? Hc2]|[? Hc2]],
    (to_lower_spec (f ch)) as [[? Hl1]|[? Hl1]],
    (to_lower_spec ch) as [[? Hl2]|[? Hl2]],
    (is_letter_spec (f ch)) as [[Ht1 ?]|[Ht1 ?]],
    (is_letter_spec ch) as [[Ht2 ?]|[Ht2 ?]];
    rewrite Hc1, Hc2 in Hcan; rewrite Hc2, Hl1, Hl2, Ht1, Ht2; try lia;
    repeat split; try (intros [=]); try lia.
Qed.

Lemma case_change_fixed ch : is_letter ch = false → f ch = ch.
Proof. apply case_change_letter. Qed.

Lemma case_change_letter_iff ch : is_letter (f ch) = is_letter ch.
Proof. apply case_change_letter. Qed.
(** A predicate that no letter satisfies differently from another letter
    is kept by the map; each class of the matcher is one. *)
Lemma case_change_eq p ch : is_letter p = false → (p =? f ch)%N = (p =? ch)%N.
Proof.
  intros Hp. destruct (is_letter ch) eqn:Hch.
  - pose proof (case_change_letter_iff ch) as Hfl. rewrite Hch in Hfl.
    destruct (N.eqb_spec p (f ch)) as [->|_]; [congruence|].
    destruct (N.eqb_spec p ch) as [->|_]; [congruence | done].
  - by rewrite case_change_fixed.
Qed.

Lemma case_change_space ch : is_space (f ch) = is_space ch.
Proof.
  destruct (is_letter ch) eqn:Hch; [|by rewrite case_change_fixed].
  pose proof (case_change_letter_iff ch) as Hfl. rewrite Hch in Hfl.
  by rewrite !letter_not_space.
Qed.

Lemma case_change_terminator ch : is_line_terminator (f ch) = is_line_terminator ch.
Proof.
  unfold is_line_terminator. by rewrite !(N.eqb_sym (f ch)), !(N.eqb_sym ch),
    !case_change_eq.
Qed.

Lemma case_change_digit ch : is_digit (f ch) = is_digit ch.
Proof.
  destruct (is_letter ch) eqn:Hch; [|by rewrite case_change_fixed].
  pose proof (case_change_letter_iff ch) as Hfl. rewrite Hch in Hfl.
  by rewrite !letter_not_digit.
Qed.

Lemma case_change_word ch : is_word (f ch) = is_word ch.
Proof.
  destruct (is_letter ch) eqn:Hch.
  - pose proof (case_change_letter_iff ch) as Hfl. rewrite Hch in Hfl.
    assert (∀ x, is_letter x = true → is_word x = true) as Hw.
    { intros x Hx. unfold is_word. unfold is_letter in Hx.
      destruct (in_range 97 122 x), (in_range 65 90 x); done. }
    by rewrite !Hw.
  - by rewrite case_change_fixed.
Qed.

Lemma case_change_char i p ch :
  i || negb (is_letter p) = true →
  char_matches i p (f ch) = char_matches i p ch.
Proof.
  unfold char_matches. destruct i; [by rewrite Hf|]. cbn [orb].
  intros Hp. apply negb_true_iff in Hp. by apply case_change_eq.
Qed.

Lemma case_change_item1 it ch :
  item_blind it = true → item_matches1 it (f ch) = item_matches1 it ch.
Proof.
  destruct it; cbn [item_blind item_matches1]; try done.
  - intros Hp. apply negb_true_iff in Hp. by apply case_change_eq.
  - intros _. apply case_change_space.
  - intros _. by rewrite case_change_space.
  - intros _. apply case_change_word.
  - intros _. apply case_change_digit.
Qed.

Lemma case_change_item i it ch :
  i || item_blind it = true → item_matches i it (f ch) = item_matches i it ch.
Proof.
  unfold item_matches. destruct i; [|by apply case_change_item1].
  intros _. rewrite Hf.
  destruct (case_change_letter ch) as (Hfc & Hc & Hlow & _ & _). rewrite Hlow.
  destruct Hfc as [-> | ->], Hc as [Hc | Hc];
    destruct (item_matches1 it (canonicalize ch)) eqn:H1,
             (item_matches1 it (to_lower ch)) eqn:H2,
             (item_matches1 it ch) eqn:H3; cbn [orb]; try done;
    rewrite <- Hc in *; congruence.
Qed.

Lemma case_change_set i negated items ch :
  i || forallb item_blind items = true →
  set_matches i negated items (f ch) = set_matches i negated items ch.
Proof.
  unfold set_matches. intros Hblind. f_equal.
  induction items as [|it items IH]; [done|]. cbn [existsb forallb] in *.
  rewrite case_change_item, IH; [done | |];
    destruct i; cbn [orb] in *; try done;
    apply andb_true_iff in Hblind as [? ?]; done.
Qed.

Lemma map_state_advance ch cs st :
  map_state f (advance ch cs st) = advance (f ch) (f <$> cs) (map_state f st).
Proof. reflexivity. Qed.

(** A test that the map keeps gives the same step on the mapped state. *)
Lemma step_case t st k k' :
  (∀ ch, t (f ch) = t ch) →
  (∀ st1, k' (map_state f st1) = map_state f <$> k st1) →
  step t (map_state f st) k' = map_state f <$> step t st k.
Proof.
  intros Ht Hk. unfold step. cbn [map_state rest].
  destruct (rest st) as [|ch cs]; [done|]. cbn [fmap list_fmap].
  rewrite Ht. destruct (t ch); [|done].
  by rewrite <- Hk.
Qed.

Lemma star_loop_case g m1 m1' k k' fuel st :
  (∀ st1 k1 k1', (∀ st2, k1' (map_state f st2) = map_state f <$> k1 st2) →
                 m1' (map_state f st1) k1' = map_state f <$> m1 st1 k1) →
  (∀ st1, k' (map_state f st1) = map_state f <$> k st1) →
  star_loop g m1' k' fuel (map_state f st)
  = map_state f <$> star_loop g m1 k fuel st.
Proof.
  intros Hm1 Hk. revert st. induction fuel as [|fuel IH]; intros st; [done|].
  rewrite !star_loop_unfold.
  rewrite (Hm1 st
    (fun st1 => if pos st1 =? pos st then None else star_loop g m1 k fuel st1)).
  - rewrite Hk. destruct g.
    + by destruct (m1 st _).
    + by destruct (k st).
  - intros st2. cbn [map_state pos]. destruct (pos st2 =? pos st); [done|].
    apply IH.
Qed.

(** The matcher on the mapped subject does what it does on the subject. *)
Lemma rmatch_case i m r st k k' :
  case_blind i r = true →
  (∀ st1, k' (map_state f st1) = map_state f <$> k st1) →
  rmatch i m r (map_state f st) k' = map_state f <$> rmatch i m r st k.
Proof.
  revert st k k'.
  induction r as [|p|negated items| | | |r1 IH1 r2 IH2|r1 IH1 r2 IH2|g r1 IH1
                  |n r1 IH1|r1 IH1]; intros st k k' Hr Hk;
    cbn [rmatch case_blind] in *.
  - apply Hk.
  - apply step_case; [|done]. intros ch. by apply case_change_char.
  - apply step_case; [|done]. intros ch. by apply case_change_set.
  - apply step_case; [|done]. intros ch. by rewrite case_change_terminator.
  - unfold at_bol. cbn [map_state prev].
    destruct (prev st) as [ch|]; cbn [fmap option_fmap option_map];
      rewrite ?case_change_terminator; [|apply Hk].
    destruct (m && _); [apply Hk | done].
  - unfold at_eol. cbn [map_state rest].
    destruct (rest st) as [|ch cs]; cbn [fmap list_fmap];
      rewrite ?case_change_terminator; [apply Hk|].
    destruct (m && _); [apply Hk | done].
  - apply andb_true_iff in Hr as [Hr1 Hr2].
    apply IH1; [done|]. intros st1. by apply IH2.
  - apply andb_true_iff in Hr as [Hr1 Hr2].
    rewrite (IH1 st k k' Hr1 Hk), (IH2 st k k' Hr2 Hk).
    by destruct (rmatch i m r1 st k).
  - replace (length (rest (map_state f st))) with (length (rest st))
      by (cbn; by rewrite length_fmap).
    apply star_loop_case; [|done]. intros st1 k1 k1' Hk1. by apply IH1.
  - apply IH1; [done|]. intros st1.
    by rewrite <- Hk.
  - rewrite (IH1 st Some Some Hr) by done.
    destruct (rmatch i m r1 st Some) as [st1|]; cbn; [|done].
    by rewrite <- Hk.
Qed.

Lemma search_case i m r st cs :
  case_blind i r = true →
  search i m r (map_state f st) (f <$> cs)
  = prod_map (map_state f) (map_state f) <$> search i m r st cs.
Proof.
  intros Hr. revert st. induction cs as [|ch cs IH]; intros st; cbn [search fmap list_fmap];
    rewrite (rmatch_case i m r st Some Some Hr) by done;
    destruct (rmatch i m r st Some); try done.
  rewrite <- IH. done.
Qed.

Lemma state_at_case n st :
  state_at n (map_state f st) = map_state f <$> state_at n st.
Proof.
  revert st. induction n as [|n IH]; intros st; [done|].
  cbn [state_at map_state rest]. destruct (rest st) as [|ch cs]; [done|].
  cbn [fmap list_fmap]. by rewrite <- IH.
Qed.

Lemma substring_case (s : list N) a b : substring (f <$> s) a b = f <$> substring s a b.
Proof. unfold substring. by rewrite fmap_take, fmap_drop. Qed.

(** [exec] on the mapped subject: the same match, mapped, and the same
    RegExp object afterwards. *)
Lemma exec_case (re : RegExp) (s : list N) :
  case_blind (ignoreCase re) (source re) = true →
  (exec re (f <$> s)).2 = (exec re s).2
  ∧ match (exec re (f <$> s)).1, (exec re s).1 with
    | Some mr', Some mr =>
        matched mr' = f <$> matched mr
        ∧ ∀ n, group mr' n = fmap (M:=list) f <$> group mr n
    | None, None => True
    | _, _ => False
    end.
Proof.
  intros Hr. unfold exec.
  change (start_state (f <$> s)) with (map_state f (start_state s)).
  rewrite state_at_case.
  destruct (state_at _ (start_state s)) as [st|]; [|done].
  cbn [fmap option_fmap option_map].
  change (rest (map_state f st)) with (f <$> rest st).
  rewrite search_case by done.
  destruct (search _ _ _ st (rest st)) as [[b e]|]; [|done].
  cbn. split; [done|]. split; [apply substring_case|].
  intros n. destruct (lookup_cap n (caps e)) as [[a c]|]; [|done].
  cbn. by rewrite substring_case.
Qed.

Lemma tests_case (re : RegExp) (s : list N) :
  case_blind (ignoreCase re) (source re) = true →
  Catalog.tests re (f <$> s) = Catalog.tests re s.
Proof.
  intros Hr. unfold Catalog.tests, test.
  destruct (exec_case re s Hr) as [_ H].
  destruct (exec re (f <$> s)) as [[mr'|] re1], (exec re s) as [[mr|] re2];
    cbn in *; try done.
Qed.

Lemma match_loop_case fuel (re : RegExp) (s : list N) :
  case_blind (ignoreCase re) (source re) = true →
  match_loop fuel re (f <$> s) = fmap (M:=list) f <$> match_loop fuel re s.
Proof.
  revert re. induction fuel as [|fuel IH]; intros re Hr; [done|].
  cbn [match_loop].
  destruct (exec_case re s Hr) as [Hre H].
  assert (source (exec re s).2 = source re ∧ ignoreCase (exec re s).2 = ignoreCase re)
    as [Hsrc Hi].
  { unfold exec. repeat case_match; by destruct (global re). }
  destruct (exec re (f <$> s)) as [[mr'|] re1], (exec re s) as [[mr|] re2];
    cbn in *; try done.
  destruct H as [Hm _]. subst re1. rewrite Hm. cbn [fmap list_fmap]. f_equal.
  rewrite <- IH.
  - f_equal. destruct (matched mr); cbn [fmap list_fmap];
      [by rewrite !bool_decide_eq_true_2 | by rewrite !bool_decide_eq_false_2].
  - case_bool_decide; cbn; by rewrite Hsrc, Hi.
Qed.

Lemma match_all_case (re : RegExp) (s : list N) :
  case_blind (ignoreCase re) (source re) = true →
  or_empty (match_all re (f <$> s)) = fmap (M:=list) f <$> or_empty (match_all re s).
Proof.
  intros Hr. unfold match_all. rewrite length_fmap, match_loop_case by done.
  by destruct (match_loop _ _ s).
Qed.

Lemma split_case (s : list N) :
  split 10 (f <$> s) = fmap (M:=list) f <$> split 10 s.
Proof.
  induction s as [|ch s IH]; [done|]. cbn [fmap list_fmap split].
  rewrite IH, (N.eqb_sym (f ch)), case_change_eq, (N.eqb_sym 10) by done.
  destruct (ch =? 10)%N; [done|]. by destruct (split 10 s).
Qed.
End CaseChange.
Section CaseChangeReport.
Import JS.
Variable f : N → N.
Hypothesis Hf : case_change f.

Lemma trim_start_case (s : list N) : trim_start (f <$> s) = f <$> trim_start s.
Proof.
  induction s as [|ch s IH]; [done|]. cbn [fmap list_fmap trim_start].
  rewrite (case_change_space f Hf). by destruct (is_space ch).
Qed.

Lemma trim_case (s : list N) : trim (f <$> s) = f <$> trim s.
Proof.
  unfold trim, trim_end.
  by rewrite trim_start_case, <- fmap_reverse, trim_start_case, fmap_reverse.
Qed.

Lemma join_case sep (a : list (list N)) :
  join (f <$> sep) (fmap (M:=list) f <$> a) = f <$> join sep a.
Proof.
  induction a as [|x a IH]; [done|]. cbn [fmap list_fmap join].
  destruct a as [|y a]; [done|]. cbn [fmap list_fmap] in *.
  by rewrite IH, !fmap_app.
Qed.

Lemma match_first_case (re : RegExp) (s : list N) :
  case_blind (ignoreCase re) (source re) = true →
  match match_first re (f <$> s), match_first re s with
  | Some mr', Some mr =>
      matched mr' = f <$> matched mr
      ∧ ∀ n, group mr' n = fmap (M:=list) f <$> group mr n
  | None, None => True
  | _, _ => False
  end.
Proof. intros Hr. unfold match_first. by destruct (exec_case f Hf re s Hr). Qed.

Lemma body_has_case title (re : RegExp) (content : list N) :
  case_blind true (Lit title) = true →
  case_blind (ignoreCase re) (source re) = true →
  Catalog.body_has title re (f <$> content) = Catalog.body_has title re content.
Proof.
  intros Ht Hr. unfold Catalog.body_has.
  pose proof (match_first_case (Catalog.section_body title) content) as H.
  destruct (match_first _ (f <$> content)) as [mr'|],
    (match_first _ content) as [mr|]; try done.
  - destruct H as [_ Hg]; [|rewrite (Hg 1)].
    + cbn [Catalog.section_body literal ignoreCase source Cat Catalog.heading
           case_blind]. by rewrite Ht.
    + destruct (group mr 1) as [g|]; cbn; [by apply tests_case | done].
  - destruct H. cbn [Catalog.section_body literal ignoreCase source Cat
                     Catalog.heading case_blind]. by rewrite Ht.
  - destruct H. cbn [Catalog.section_body literal ignoreCase source Cat
                     Catalog.heading case_blind]. by rewrite Ht.
Qed.

Lemma heading_levels_case (content : list N) :
  Catalog.heading_levels (f <$> content) = Catalog.heading_levels content.
Proof.
  unfold Catalog.heading_levels. rewrite (match_all_case f Hf) by done.
  rewrite <- list_fmap_compose. apply list_fmap_ext. intros _ h _. cbn.
  by rewrite trim_case, length_fmap.
Qed.

Lemma description_length_case (content : list N) :
  Catalog.check_DescriptionLength (f <$> content)
  = Catalog.check_DescriptionLength content.
Proof.
  unfold Catalog.check_DescriptionLength.
  match goal with
  | |- context [match_first ?re (f <$> content)] =>
      pose proof (match_first_case re content eq_refl) as H;
      destruct (match_first re (f <$> content)) as [mr'|],
        (match_first re content) as [mr|]; try done
  end.
  destruct H as [-> _].
  rewrite (split_case f Hf). unfold slice1. rewrite <- fmap_drop.
  assert (f <$> [Catalog.c " "] = [Catalog.c " "]) as Hsp
    by (cbn; by rewrite (case_change_fixed f Hf)).
  rewrite <- Hsp at 1. by rewrite join_case, trim_case, length_fmap.
Qed.

(** What a change of case leaves alone: every section rule, both
    metrics, and every extra rule but the two that name letters. *)
Lemma section_entry_case (content : list N) crit :
  crit ∈ Catalog.the_sectionCriteria →
  section_entry (f <$> content) crit = section_entry content crit.
Proof.
  intros Hin. unfold section_entry, section_present. f_equal. f_equal.
  assert (Forall (fun crit =>
            case_blind (ignoreCase (SectionCriterion.regex crit))
                       (source (SectionCriterion.regex crit)) = true)
            Catalog.the_sectionCriteria) as Hall by (repeat constructor).
  rewrite Forall_forall in Hall.
  apply (tests_case f Hf). by apply Hall.
Qed.

Lemma extra_present_case (content : list N) crit :
  crit ∈ Catalog.the_extraCriteria →
  ExtraCriterion.name crit ∈ case_sensitive_rules
  ∨ extra_present (f <$> content) crit = extra_present content crit.
Proof.
  revert crit. apply Forall_forall. unfold Catalog.the_extraCriteria.
  repeat apply Forall_cons_2; [..|apply Forall_nil_2];
    try (left; cbn; set_solver); right;
    unfold extra_present, Catalog.returns; cbn [ExtraCriterion.check].
  - apply description_length_case.
  - by apply (tests_case f Hf).
  - unfold Catalog.check_MultipleBadges.
    by rewrite (match_all_case f Hf), length_fmap.
  - by apply (tests_case f Hf).
  - by apply (tests_case f Hf).
  - by apply (tests_case f Hf).
  - by apply (tests_case f Hf).
  - by apply (tests_case f Hf).
  - unfold Catalog.check_ConsistentHeadingLevels. by rewrite heading_levels_case.
  - unfold Catalog.check_NoPlaceholderText. f_equal. by apply (tests_case f Hf).
  - unfold Catalog.check_NoBrokenMarkdown. f_equal. by apply (tests_case f Hf).
  - by apply body_has_case.
  - by apply body_has_case.
  - by apply body_has_case.
  - by apply body_has_case.
  - by apply body_has_case.
Qed.
End CaseChangeReport.
Lemma awarded_extras_close (content content' : list N) names crits :
  Forall (fun crit => (0 ≤ ExtraCriterion.score crit)%Z) crits →
  (∀ crit, crit ∈ crits →
     ExtraCriterion.name crit ∈ names
     ∨ extra_present content' crit = extra_present content crit) →
  (Z.abs (awarded (extra_entry content' <$> crits)
          - awarded (extra_entry content <$> crits))
   ≤ weight_of_rules names crits)%Z.
Proof.
  unfold awarded, weight_of_rules, sum_Z.
  induction 1 as [|crit crits Hw _ IH]; intros Hcase; cbn; [lia|].
  assert (∀ c, c ∈ crits →
            ExtraCriterion.name c ∈ names
            ∨ extra_present content' c = extra_present content c) as Hrest.
  { intros c Hc. apply Hcase. by apply elem_of_cons; right. }
  specialize (IH Hrest).
  destruct (Hcase crit (list_elem_of_here _ _)) as [Hin|Heq].
  - rewrite bool_decide_eq_true_2 by done.
    destruct (extra_present content' crit), (extra_present content crit);
      cbn; lia.
  - rewrite Heq. case_bool_decide; destruct (extra_present content crit); cbn; lia.
Qed.

Lemma upper_case_is_case_change : case_change JS.canonicalize.
Proof.
  intros ch.
  destruct (canonicalize_spec ch) as [[? H]|[? H]]; rewrite !H; [|done].
  destruct (canonicalize_spec (ch - 32)) as [[? _]|[_ H']]; [lia | done].
Qed.

(** [same_letter] spelled out: equal, or an upper-case letter and its
    lower case. *)
Lemma same_letter_spec (a b : N) :
  same_letter a b
  ↔ a = b ∨ ((65 ≤ a ≤ 90)%N ∧ b = (a + 32)%N) ∨ ((65 ≤ b ≤ 90)%N ∧ a = (b + 32)%N).
Proof.
  unfold same_letter.
  destruct (canonicalize_spec a) as [[? ->]|[? ->]],
           (canonicalize_spec b) as [[? ->]|[? ->]]; lia.
Qed.

Lemma case_variant_upper (content content' : list N) :
  case_variant content content' →
  JS.canonicalize <$> content = JS.canonicalize <$> content'.
Proof.
  induction 1 as [|a b content content' Hab _ IH]; [done|].
  cbn. by rewrite Hab, IH.
Qed.

(** What putting a document in upper case leaves alone. *)
Lemma upper_case_report (content : list N) :
  section_entry (JS.canonicalize <$> content) <$> Catalog.the_sectionCriteria
  = section_entry content <$> Catalog.the_sectionCriteria
  ∧ length (JS.split 10 (JS.canonicalize <$> content)) = length (JS.split 10 content)
  ∧ headingCount (JS.canonicalize <$> content) = headingCount content
  ∧ codeBlockCount (JS.canonicalize <$> content) = codeBlockCount content
  ∧ (∀ crit, crit ∈ Catalog.the_extraCriteria →
       ExtraCriterion.name crit ∈ case_sensitive_rules
       ∨ extra_present (JS.canonicalize <$> content) crit
         = extra_present content crit).
Proof.
  pose proof upper_case_is_case_change as Hf.
  split; [|split; [|split; [|split]]].
  - apply list_fmap_ext. intros i crit Hi. apply (section_entry_case _ Hf).
    by apply list_elem_of_lookup_2 in Hi.
  - by rewrite (split_case _ Hf), length_fmap.
  - unfold headingCount. by rewrite (match_all_case _ Hf), length_fmap.
  - unfold codeBlockCount, fenceCount.
    by rewrite (match_all_case _ Hf), length_fmap.
  - apply (extra_present_case _ Hf).
Qed.

(** X7. Changing the case of ASCII letters in a document, at any of its
    positions, changes nothing in the report but the entries of Proper
    Title Format and Links: the section entries, the length and
    formatting entries and all other extra entries are the same, and the
    total score moves by at most 5. *)
Theorem letter_case_moves_two_rules (content content' : list N) :
  case_variant content content' →
  ∃ r r', (analyze new_ReadMeAnalyzer content).1 = JS.Ret r
    ∧ (analyze new_ReadMeAnalyzer content').1 = JS.Ret r'
    ∧ AnalysisReport.sections r' = AnalysisReport.sections r
    ∧ AnalysisReport.length r' = AnalysisReport.length r
    ∧ AnalysisReport.formatting r' = AnalysisReport.formatting r
    ∧ (∀ name, name ∉ case_sensitive_rules →
         AnalysisReport.extras r' !! name = AnalysisReport.extras r !! name)
    ∧ (Z.abs (AnalysisReport.totalScore r' - AnalysisReport.totalScore r) ≤ 5)%Z.
Proof.
  intros Hvariant. apply case_variant_upper in Hvariant.
  exists (report_of new_ReadMeAnalyzer content),
         (report_of new_ReadMeAnalyzer content').
  split; [apply analyze_ret|]. split; [apply analyze_ret|].
  destruct (upper_case_report content) as (Hs & Hl & Hh & Hb & Hx).
  destruct (upper_case_report content') as (Hs' & Hl' & Hh' & Hb' & Hx').
  rewrite Hvariant in Hs, Hl, Hh, Hb, Hx.
  rewrite Hs in Hs'. rewrite Hl in Hl'. rewrite Hh in Hh'. rewrite Hb in Hb'.
  assert (∀ crit, crit ∈ Catalog.the_extraCriteria →
            ExtraCriterion.name crit ∈ case_sensitive_rules
            ∨ extra_present content' crit = extra_present content crit) as Hextras.
  { intros crit Hcrit.
    destruct (Hx crit Hcrit) as [?|Heq]; [by left|].
    destruct (Hx' crit Hcrit) as [?|Heq']; [by left|].
    right. by rewrite <- Heq', Heq. }
  cbn [report_of AnalysisReport.sections AnalysisReport.length
       AnalysisReport.formatting AnalysisReport.extras AnalysisReport.totalScore
       new_ReadMeAnalyzer sectionCriteria extraCriteria].
  rewrite <- Hs', <- Hl', <- Hh', <- Hb'.
  split; [done|]. split; [done|]. split; [done|]. split.
  - intros name Hname.
    destruct (decide (name ∈ ExtraCriterion.name <$> Catalog.the_extraCriteria))
      as [Hin|Hout].
    + apply list_elem_of_fmap in Hin as (crit & -> & Hcrit).
      destruct (Hextras crit Hcrit) as [?|Heq]; [done|].
      rewrite !(record_all_lookup _ _ _ (extra_entry content crit).2); [done |..].
      * rewrite extra_entry_names. apply extra_names_NoDup.
      * apply list_elem_of_fmap. by exists crit.
      * rewrite extra_entry_names. apply extra_names_NoDup.
      * apply list_elem_of_fmap. exists crit. split; [|done].
        unfold extra_entry. by rewrite Heq.
    + by rewrite !record_all_lookup_notin by by rewrite extra_entry_names.
  - pose proof (awarded_extras_close content content' case_sensitive_rules
                  Catalog.the_extraCriteria extra_weights_nonneg Hextras) as Hdiff.
    change (weight_of_rules case_sensitive_rules Catalog.the_extraCriteria)
      with 5%Z in Hdiff.
    lia.
Qed.

(** One [t] of the document is changed and the others are not. *)
Lemma letter_case_witness :
  case_variant (JS.of_string "# Title, see [x](http://a.b)")
               (JS.of_string "# TiTle, see [X](http://a.b)")
  ∧ ∃ r r',
      (analyze new_ReadMeAnalyzer (JS.of_string "# Title, see [x](http://a.b)")).1
        = JS.Ret r
      ∧ (analyze new_ReadMeAnalyzer (JS.of_string "# TiTle, see [X](http://a.b)")).1
        = JS.Ret r'
      ∧ AnalysisReport.sections r' = AnalysisReport.sections r
      ∧ (Z.abs (AnalysisReport.totalScore r' - AnalysisReport.totalScore r) ≤ 5)%Z.
Proof.
  assert (case_variant (JS.of_string "# Title, see [x](http://a.b)")
                       (JS.of_string "# TiTle, see [X](http://a.b)")) as Hvariant
    by (repeat constructor).
  split; [exact Hvariant|].
  destruct (letter_case_moves_two_rules _ _ Hvariant)
    as (r & r' & Hr & Hr' & Hs & _ & _ & _ & Ht).
  exists r, r'. split; [exact Hr|]. split; [exact Hr'|]. split; [exact Hs | exact Ht].
Defined.

(** *** The extremes of the score *)

(** X8. Both ends of the scale are reached: one document satisfies every
    rule and both metrics, scores 121 and gets no suggestion; another
    satisfies nothing, scores 0 and gets all 28 suggestions. *)
Theorem score_bounds_are_reached :
  (∃ content r, (analyze new_ReadMeAnalyzer content).1 = JS.Ret r
     ∧ AnalysisReport.totalScore r = AnalysisReport.maxScore r
     ∧ AnalysisReport.suggestions r = [])
  ∧ (∃ content r, (analyze new_ReadMeAnalyzer content).1 = JS.Ret r
       ∧ AnalysisReport.totalScore r = 0%Z
       ∧ length (AnalysisReport.suggestions r) = 28).
Proof.
  split.
  - exists doc_full, (report_of new_ReadMeAnalyzer doc_full).
    split; [apply analyze_ret|]. split; vm_compute; reflexivity.
  - exists doc_none, (report_of new_ReadMeAnalyzer doc_none).
    split; [apply analyze_ret|]. split; vm_compute; reflexivity.
Qed.

(** *** Headings and broken Markdown *)

Lemma substring_occurs (s : list N) a b : occurs_in s (JS.substring s a b).
Proof.
  exists (take a s), (drop (b - a) (drop a s)). unfold JS.substring.
  by rewrite take_drop, take_drop.
Qed.

Lemma match_loop_occurs fuel re (s : list N) :
  Forall (occurs_in s) (JS.match_loop fuel re s).
Proof.
  revert re. induction fuel as [|fuel IH]; intros re; [constructor|].
  cbn [JS.match_loop].
  destruct (JS.exec re s) as [[mr|] re'] eqn:Hexec; [|constructor].
  constructor; [|apply IH].
  unfold JS.exec in Hexec.
  destruct (JS.state_at _ _) as [st|]; [|done].
  destruct (JS.search _ _ _ st (JS.rest st)) as [[b e]|]; [|done].
  injection Hexec as <- _. apply substring_occurs.
Qed.

Lemma heading_marks_occur content :
  Forall (fun h => is_mark h ∧ occurs_in content h) (heading_marks_of content).
Proof.
  apply Forall_and. split; [apply heading_marks_are_marks|].
  unfold heading_marks_of, JS.match_all.
  pose proof (match_loop_occurs (S (length content))
                (JS.set_lastIndex 0 Catalog.heading_marks) content) as Hall.
  destruct (JS.match_loop _ _ _); [constructor | done].
Qed.

Lemma hashes_mark n ws :
  Forall (fun ch => JS.is_space ch = true) ws →
  hashes (replicate n 35%N ++ ws) = n.
Proof.
  intros Hws. unfold hashes. rewrite filter_app, length_app.
  assert (filter (fun ch => ch = 35%N) ws = []) as ->.
  { induction Hws as [|ch ws Hch _ IH]; [done|].
    rewrite filter_cons, decide_False; [done|]. by intros ->. }
  assert (filter (fun ch => ch = 35%N) (replicate n 35%N) = replicate n 35%N) as ->.
  { induction n as [|n IH]; [done|].
    cbn [replicate]. by rewrite filter_cons, decide_True, IH. }
  cbn. rewrite length_replicate. lia.
Qed.

(** Where No Broken Markdown holds, no heading has a second [#]. *)
Lemma sound_markdown_flat_headings content :
  Catalog.check_NoBrokenMarkdown content = true →
  Forall (fun h => hashes h = 1) (heading_marks_of content).
Proof.
  intros Hsound. eapply Forall_impl; [apply heading_marks_occur|].
  intros h [(n & ws & Hn & Hws & ->) (pre & post & Hocc)].
  rewrite hashes_mark by done.
  destruct n as [|[|n]]; [lia | done |]. exfalso.
  cbn [replicate app] in Hocc. rewrite <- app_assoc in Hocc.
  pose proof (hash_then_mark_is_broken pre 35
                (replicate n 35%N ++ ws ++ post)
                ltac:(done) ltac:(done)) as Hbroken.
  rewrite Hocc in Hsound. cbn [app] in Hsound. by rewrite Hbroken in Hsound.
Qed.

Lemma flat_headings_consistent content :
  Forall (fun h => hashes h = 1) (heading_marks_of content) →
  Catalog.check_ConsistentHeadingLevels content = true.
Proof.
  intros Hflat. apply consistent_levels_check. right.
  intros h Hh. apply list_elem_of_fmap in Hh as (mark & -> & Hmark).
  rewrite Forall_forall in Hflat. left. rewrite (Hflat mark Hmark).
  destruct (heading_marks_of content) as [|first rest]; [by apply elem_of_nil in Hmark|].
  cbn. symmetry. apply Hflat. apply list_elem_of_here.
Qed.

(** X9. A document that satisfies No Broken Markdown has only headings
    of level 1, and so satisfies Consistent Heading Levels as well. *)
Theorem sound_markdown_has_flat_headings (content : list N) :
  ∃ r, (analyze new_ReadMeAnalyzer content).1 = JS.Ret r
    ∧ (says_present (AnalysisReport.extras r) "No Broken Markdown" →
       Forall (fun h => hashes h = 1) (heading_marks_of content)
       ∧ says_present (AnalysisReport.extras r) "Consistent Heading Levels").
Proof.
  exists (report_of new_ReadMeAnalyzer content).
  split; [apply analyze_ret|]. intros Hsound.
  apply (says_present_extra content 12 _ Catalog.check_NoBrokenMarkdown
           eq_refl eq_refl) in Hsound.
  apply sound_markdown_flat_headings in Hsound. split; [done|].
  apply (says_present_extra content 10 _ Catalog.check_ConsistentHeadingLevels
           eq_refl eq_refl).
  by apply flat_headings_consistent.
Qed.

(** *** The progress bar of a report *)

Lemma progress_bar_of_score (chalk : string → list N → list N) (score : Z) :
  (0 ≤ score ≤ 121)%Z →
  formatProgressBar chalk (Num.of_Z score) (Num.of_Z 121)
  = Some (JS.Ret (progress_line chalk (round_div (100 * score) 121)
                    (round_div (30 * round_div (100 * score) 121) 100))).
Proof.
  intros Hscore.
  assert (∃ n : nat, n < 122 ∧ score = Z.of_nat n) as (n & Hn & ->)
    by (exists (Z.to_nat score); lia).
  clear Hscore.
  do 122 (destruct n as [|n]; [vm_compute; reflexivity|]). lia.
Qed.

(** X10. The progress bar of the report of any document is drawn
    without a RangeError: the percentage is the score over 121 rounded to
    the nearest integer, between 0 and 100, and the bar has 30 cells, of
    which three tenths of the percentage, rounded, are filled.  It shows
    100% for the full score only. *)
Theorem progress_bar_of_report (chalk : string → list N → list N)
    (content : list N) :
  ∃ r percent cells,
    (analyze new_ReadMeAnalyzer content).1 = JS.Ret r
    ∧ formatProgressBar chalk (Num.of_Z (AnalysisReport.totalScore r))
        (Num.of_Z (AnalysisReport.maxScore r))
      = Some (JS.Ret (progress_line chalk percent cells))
    ∧ percent = round_div (100 * AnalysisReport.totalScore r) 121
    ∧ cells = round_div (30 * percent) 100
    ∧ (0 ≤ percent ≤ 100)%Z ∧ (0 ≤ cells ≤ 30)%Z
    ∧ (percent = 100%Z ↔ AnalysisReport.totalScore r = AnalysisReport.maxScore r).
Proof.
  exists (report_of new_ReadMeAnalyzer content).
  pose proof (awarded_sections_bounds content _ section_weights_nonneg) as Hs.
  pose proof (awarded_extras_bounds content _ extra_weights_nonneg) as Hx.
  pose proof (length_check_bounds (length (JS.split 10 content))) as Hl.
  pose proof (formatting_check_bounds (headingCount content)
                (codeBlockCount content)) as Hf.
  destruct weights_total as [Hws Hwx]. rewrite Hws in Hs. rewrite Hwx in Hx.
  set (r := report_of new_ReadMeAnalyzer content).
  assert (0 ≤ AnalysisReport.totalScore r ≤ 121)%Z as Htotal
    by (subst r; cbn [report_of AnalysisReport.totalScore new_ReadMeAnalyzer
                      sectionCriteria extraCriteria]; lia).
  assert (AnalysisReport.maxScore r = 121%Z) as Hmax by reflexivity.
  eexists _, _. split; [apply analyze_ret|].
  split; [rewrite Hmax; by apply progress_bar_of_score|].
  split; [done|]. split; [done|].
  unfold round_div.
  assert (0 ≤ (2 * (100 * AnalysisReport.totalScore r) + 121) / (2 * 121) ≤ 100)%Z
    as Hp.
  { split; [apply Z.div_pos; lia|].
    apply Z.lt_succ_r, Z.div_lt_upper_bound; lia. }
  split; [done|].
  split.
  { split; [apply Z.div_pos; lia|].
    apply Z.lt_succ_r, Z.div_lt_upper_bound; lia. }
  rewrite Hmax. split.
  - intros Hfull.
    destruct (decide (AnalysisReport.totalScore r ≤ 120)%Z) as [Hle|]; [|lia].
    assert ((2 * (100 * AnalysisReport.totalScore r) + 121) / (2 * 121) < 100)%Z
      by (apply Z.div_lt_upper_bound; lia).
    lia.
  - intros ->. reflexivity.
Qed.

(** Beyond the scores of a report the bar can fail: a score above the
    maximum asks for a negative number of empty cells. *)
Example progress_bar_out_of_range (chalk : string → list N → list N) :
  formatProgressBar chalk (Num.of_Z 130) (Num.of_Z 121)
  = Some (JS.Throw "RangeError")
  ∧ formatProgressBar chalk (Num.of_Z (-5)) (Num.of_Z 121)
    = Some (JS.Throw "RangeError")
  ∧ formatProgressBar chalk (Num.of_Z 3) (Num.of_Z 0)
    = Some (JS.Throw "RangeError")
  ∧ formatProgressBar chalk (Num.of_Z 0) (Num.of_Z 0)
    = Some (JS.Ret (chalk "bold" (JS.of_string "Score:") ++ JS.of_string " "
                    ++ chalk "cyan" (JS.of_string "NaN%") ++ JS.of_string "  ")).
Proof. repeat split; vm_compute; reflexivity. Qed.
